(** * Incremental synchronisation of per-symbol price archives

    A shallow embedding of [fetch_stocks.py]: the pandas operations the
    script applies to its tables, the archive files it reads and writes,
    the provider it queries, and [fetch_and_update], [fetch_worker] and the
    task loop of [main] on top of them. *)

From Stdlib Require Import ZArith Lia Ascii.
From stdpp Require Import base option list strings gmap sorting.

Local Open Scope Z_scope.

(* ===================================================================== *)
(** * Tables *)
(* ===================================================================== *)

(** A time zone object, identified by its name ("Asia/Kolkata"). *)
Definition TZ := string.

(** A pandas [Timestamp]: [value] counts nanoseconds, from the epoch in UTC
    when [tzinfo] is set, on the wall clock when it is not. *)
Record Timestamp := mkTs { tzinfo : option TZ; value : Z }.

(** A numeric cell. [NaN] is what pandas fills a missing field with,
    [Num x] is a float64 number, given by its IEEE 754 bits [x], and
    [Int64 n] is the integer [n] of an int64 column (the Volume of a
    response). The script computes on no field; what changes a cell is
    [pd.concat] bringing an int64 column to float64. *)
Inductive Cell := NaN | Num (x : Z) | Int64 (n : Z).

(** The float64 nearest to an integer, ties going to the even significand,
    as its IEEE 754 bits: the sign, 11 bits of exponent, 52 bits of
    significand. A significand that rounds up to [2 ^ 53] carries into the
    exponent. *)
Definition float64_of_int (n : Z) : Z :=
  if n =? 0 then 0
  else
    let a := Z.abs n in
    let k := Z.log2 a in
    let q :=
      if k <=? 52 then a * 2 ^ (52 - k)
      else
        let d := 2 ^ (k - 52) in
        let q := a / d in
        let r := a mod d in
        if (d <? 2 * r) || ((d =? 2 * r) && Z.odd q) then q + 1 else q in
    (if n <? 0 then 2 ^ 63 else 0) + (k + 1023) * 2 ^ 52 + (q - 2 ^ 52).

(** [astype('float64')] on a cell. *)
Definition astype_float64 (c : Cell) : Cell :=
  match c with
  | Int64 n => Num (float64_of_int n)
  | _ => c
  end.

(** One Bar: the index value and the cells, positionally under [columns]. *)
Definition Row : Type := Z * list Cell.

(** A [DataFrame] indexed by a [DatetimeIndex]: the index has one zone
    (or none) for all its values. *)
Record DataFrame := mkDF {
  index_tz : option TZ;
  columns : list string;
  rows : list Row
}.

(** [pd.DataFrame()] *)
Definition DataFrame_new : DataFrame := mkDF None [] [].

Definition index (df : DataFrame) : list Z := fst <$> rows df.

(** [df.empty]: no row or no column. *)
Definition empty (df : DataFrame) : bool :=
  match rows df, columns df with
  | [], _ => true
  | _, [] => true
  | _, _ => false
  end.

(** [df.index[-1]] of a table with rows. *)
Definition index_last (df : DataFrame) : option Timestamp :=
  mkTs (index_tz df) <$> last (index df).

(** [Index.duplicated(keep='last')]: an entry is marked when an equal one
    comes later. *)
Fixpoint duplicated_last `{EqDecision A} (l : list A) : list bool :=
  match l with
  | [] => []
  | x :: rest => bool_decide (x ∈ rest) :: duplicated_last rest
  end.

(** [Index.duplicated()] (keep='first'): an entry is marked when an equal
    one came before. *)
Fixpoint duplicated_first_from `{EqDecision A} (seen l : list A) : list bool :=
  match l with
  | [] => []
  | x :: rest => bool_decide (x ∈ seen) :: duplicated_first_from (x :: seen) rest
  end.

Definition duplicated_first `{EqDecision A} (l : list A) : list bool :=
  duplicated_first_from [] l.

(** [Index.has_duplicates] *)
Definition has_duplicates `{EqDecision A} (l : list A) : bool :=
  existsb id (duplicated_last l).

(** Boolean indexing, [xs[mask]]. *)
Fixpoint select {A} (mask : list bool) (l : list A) : list A :=
  match mask, l with
  | true :: mask', x :: l' => x :: select mask' l'
  | false :: mask', _ :: l' => select mask' l'
  | _, _ => []
  end.

(** [df[~df.index.duplicated(keep='last')]] *)
Definition drop_index_duplicates (df : DataFrame) : DataFrame :=
  mkDF (index_tz df) (columns df)
       (select (negb <$> duplicated_last (index df)) (rows df)).

(** [df.loc[:, ~df.columns.duplicated()]] *)
Definition drop_column_duplicates (df : DataFrame) : DataFrame :=
  let keep := negb <$> duplicated_first (columns df) in
  mkDF (index_tz df) (select keep (columns df))
       ((λ r : Row, (r.1, select keep r.2)) <$> rows df).

(** The cleaning the script applies to a table: both steps, each under its
    [has_duplicates] test. *)
Definition clean (df : DataFrame) : DataFrame :=
  let df1 := if has_duplicates (index df) then drop_index_duplicates df else df in
  if has_duplicates (columns df1) then drop_column_duplicates df1 else df1.

(* ===================================================================== *)
(** * Exceptions *)
(* ===================================================================== *)

Inductive Exn :=
  | ProviderError (msg : string)   (* whatever yf.download raises *)
  | ParserError                    (* read_csv on an unreadable file *)
  | AmbiguousTimeError             (* tz_localize: wall time not in the zone *)
  | TypeError
  | InvalidIndexError
  | OutOfBoundsDatetime            (* a Timestamp past [Timestamp.max] *)
  | PermissionError
  | OSError.

Inductive Exc (A : Type) :=
  | Return (a : A)
  | Raise (e : Exn).
Arguments Return {A} a.
Arguments Raise {A} e.

Definition exc_bind {A B} (m : Exc A) (k : A → Exc B) : Exc B :=
  match m with
  | Return a => k a
  | Raise e => Raise e
  end.

Fixpoint exc_mapM {A B} (f : A → Exc B) (l : list A) : Exc (list B) :=
  match l with
  | [] => Return []
  | x :: rest =>
      exc_bind (f x) (λ y, exc_bind (exc_mapM f rest) (λ ys, Return (y :: ys)))
  end.

(* ===================================================================== *)
(** * Time zone alignment and concatenation *)
(* ===================================================================== *)

(** [DatetimeIndex.tz_localize(tz)]: attaches [tz] to a naive index, reading
    each value as wall time in that zone. [loc tz w] is the instant of wall
    time [w], when the zone has exactly one. An index that already has a zone
    is refused. *)
Definition tz_localize (loc : TZ → Z → option Z) (tz : TZ) (df : DataFrame)
  : Exc DataFrame :=
  match index_tz df with
  | Some _ => Raise TypeError
  | None =>
      exc_bind
        (exc_mapM (λ r : Row,
           match loc tz r.1 with
           | Some v => Return (v, r.2)
           | None => Raise AmbiguousTimeError
           end) (rows df))
        (λ rs, Return (mkDF (Some tz) (columns df) rs))
  end.

(** The alignment step before the merge (under [if not existing_df.empty]). *)
Definition align_timezones (loc : TZ → Z → option Z)
    (existing_df new_data : DataFrame) : Exc (DataFrame * DataFrame) :=
  if negb (empty existing_df) then
    match index_tz existing_df, index_tz new_data with
    | None, Some tz =>
        exc_bind (tz_localize loc tz existing_df)
                 (λ existing_df', Return (existing_df', new_data))
    | Some tz, None =>
        exc_bind (tz_localize loc tz new_data)
                 (λ new_data', Return (existing_df, new_data'))
    | _, _ => Return (existing_df, new_data)
    end
  else Return (existing_df, new_data).

(** The cell of a row under column [c]. *)
Fixpoint cell_of (cols : list string) (cells : list Cell) (c : string)
  : option Cell :=
  match cols, cells with
  | c' :: cols', x :: cells' =>
      if bool_decide (c' = c) then Some x else cell_of cols' cells' c
  | _, _ => None
  end.

(** Cells laid out under other columns; fields they do not have are NaN. *)
Definition relay (from to : list string) (cells : list Cell) : list Cell :=
  (λ c, default NaN (cell_of from cells c)) <$> to.

Definition reindex (from to : list string) (r : Row) : Row :=
  (r.1, relay from to r.2).

(** Columns of [b] that [a] does not have, in [b]'s order. *)
Definition new_columns (a b : list string) : list string :=
  filter (λ c, c ∉ a) b.

Definition is_int64 (c : option Cell) : bool :=
  match c with
  | Some (Int64 _) => true
  | _ => false
  end.

(** The column at position [j] of a side with rows [rs] has dtype float64:
    the side has rows, and none holds an int64 there. *)
Definition float_column (rs : list Row) (j : nat) : bool :=
  match rs with
  | [] => false
  | _ => forallb (λ r : Row, negb (is_int64 (r.2 !! j))) rs
  end.

(** The cells of a row in the common dtypes of two sides: a column that is
    float64 on a side is float64 in the result. *)
Definition upcast_cells (ra rb : list Row) (cells : list Cell) : list Cell :=
  imap (λ j c, if float_column ra j || float_column rb j
               then astype_float64 c else c) cells.

Definition upcast (ra rb : list Row) (r : Row) : Row :=
  (r.1, upcast_cells ra rb r.2).

(** [pd.concat([a, b])]: the rows of [a], then those of [b]. With the same
    columns on both sides the rows are taken as they are; otherwise the
    columns are united in order of first appearance, which pandas refuses
    when a side repeats a column name, and a field a side does not have is
    NaN. Each column then gets the common dtype of the two sides: an int64
    column stays int64 when it is int64 on both sides, and its integers
    become float64 when the other side has floats or NaN there. The index
    values are kept as they are; the index is given the zone of the first
    table that has rows (the script concatenates after the alignment step,
    so both sides are aware or both naive, and equality of two aware
    timestamps is equality of their instants whatever the zones are
    called). *)
Definition concat (a b : DataFrame) : Exc DataFrame :=
  let tz := match rows a with [] => index_tz b | _ => index_tz a end in
  if bool_decide (columns a = columns b) then
    Return (mkDF tz (columns a)
              (upcast (rows a) (rows b) <$> rows a ++ rows b))
  else if has_duplicates (columns a) || has_duplicates (columns b) then
    Raise InvalidIndexError
  else
    let cols := columns a ++ new_columns (columns a) (columns b) in
    let ra := reindex (columns a) cols <$> rows a in
    let rb := reindex (columns b) cols <$> rows b in
    Return (mkDF tz cols (upcast ra rb <$> ra ++ rb)).

(** Lines 96-103 and 127-134: align zones, concatenate, keep the last row of
    each index value. The result is the table handed to [to_csv]. *)
Definition merge (loc : TZ → Z → option Z)
    (existing_df new_data : DataFrame) : Exc DataFrame :=
  exc_bind (align_timezones loc existing_df new_data) (λ '(e, n),
  exc_bind (concat e n) (λ combined,
  Return (drop_index_duplicates combined))).

(** Reconciliation of an incoming table with the existing one: the incoming
    table is cleaned (lines 88-92, 119-123) and merged. *)
Definition reconcile (loc : TZ → Z → option Z)
    (existing_df new_data : DataFrame) : Exc DataFrame :=
  merge loc existing_df (clean new_data).

(* ===================================================================== *)
(** * The world of a run *)
(* ===================================================================== *)

(** What an archive path holds: a table that [read_csv] parses, or bytes it
    does not. An absent path holds nothing. A file is taken at the level of
    its table: what [to_csv] wrote is what [read_csv] returns. *)
Inductive File :=
  | Unreadable
  | Table (df : DataFrame).

(** The selector of a provider request: [start=] or [period=]. *)
Inductive Range :=
  | Start (t : Timestamp)
  | Period (p : string).

Record Request := mkReq {
  req_symbol : string;
  req_interval : string;
  req_range : Range
}.

(** How a write to a path goes: it succeeds, the path cannot be opened, or
    the device fails after [n] rows have reached the file. *)
Inductive Disk :=
  | DiskOk
  | OpenDenied
  | FailsAfter (n : nat).

(** What the script prints. *)
Inductive Msg :=
  | ErrorReading (csv_file : string) (e : Exn)
  | ConcatFailed (symbol_ns interval : string) (e : Exn)
  | DebugConcatFailed (symbol_ns interval : string) (e : Exn)
  | FailedToFetch (symbol_ns interval : string) (e : Exn)
  | TaskFailed (e : Exn).

(** The collaborators of a run, none of which the script controls: the
    provider behind [yf.download], the clock behind [datetime.now], the
    zone database behind [tz_localize], and the file system's faults. *)
Record Env := mkEnv {
  provider : Request → Exc DataFrame;
  now_utc : Z;
  now_local : Z;
  localize : TZ → Z → option Z;
  disk : string → Disk;
  mkdir_allowed : string → bool;
  cwd : string
}.

(** What a run changes: the files and directories, and, as a record of its
    effects, the lines printed, the requests sent and the writes started. *)
Record State := mkState {
  files : gmap string File;
  dirs : gset string;
  stdout : list Msg;
  requests : list Request;
  writes : list (string * DataFrame)
}.

(** Computations that read and change the state and may raise. *)
Definition IO (A : Type) : Type := State → State * Exc A.

Definition ret {A} (a : A) : IO A := λ s, (s, Return a).
Definition raise {A} (e : Exn) : IO A := λ s, (s, Raise e).
Definition bind {A B} (m : IO A) (k : A → IO B) : IO B :=
  λ s, match m s with
       | (s', Return a) => k a s'
       | (s', Raise e) => (s', Raise e)
       end.
Definition lift {A} (m : Exc A) : IO A := λ s, (s, m).

(** [try: body / except Exception as e: handler e] *)
Definition try_except {A} (body : IO A) (handler : Exn → IO A) : IO A :=
  λ s, match body s with
       | (s', Return a) => (s', Return a)
       | (s', Raise e) => handler e s'
       end.

Declare Scope io_scope.
Delimit Scope io_scope with io.
Notation "'let*' x ':=' m 'in' k" := (bind m (λ x, k))
  (at level 10, x name, m at level 100, k at level 200, only parsing)
  : io_scope.
Notation "'let*' ' p ':=' m 'in' k" := (bind m (λ p, k))
  (at level 10, p pattern, m at level 100, k at level 200, only parsing)
  : io_scope.
Local Open Scope io_scope.

Definition print (m : Msg) : IO unit :=
  λ s, (mkState (files s) (dirs s) (stdout s ++ [m]) (requests s) (writes s),
        Return tt).

(** [os.path.exists] *)
Definition os_path_exists (path : string) : IO bool :=
  λ s, (s, Return (bool_decide (is_Some (files s !! path)
                                 ∨ path ∈ dirs s))).

(** [os.makedirs] *)
Definition os_makedirs (env : Env) (path : string) : IO unit :=
  λ s, if mkdir_allowed env path
       then (mkState (files s) ({[path]} ∪ dirs s) (stdout s) (requests s)
                     (writes s), Return tt)
       else (s, Raise PermissionError).

(** [pd.read_csv(csv_file, index_col=0, parse_dates=True)] *)
Definition read_csv (path : string) : IO DataFrame :=
  λ s, match files s !! path with
       | Some (Table df) => (s, Return df)
       | _ => (s, Raise ParserError)
       end.

(** The rows of a table that reached the file when the write stopped after
    [n] of them. *)
Definition first_rows (n : nat) (df : DataFrame) : DataFrame :=
  mkDF (index_tz df) (columns df) (take n (rows df)).

(** [df.to_csv(path)]: pandas opens [path] itself for writing, which empties
    it, and writes the rows in order. *)
Definition to_csv (env : Env) (df : DataFrame) (path : string) : IO unit :=
  λ s,
    let started := writes s ++ [(path, df)] in
    let put f := mkState (<[path := f]> (files s)) (dirs s) (stdout s)
                         (requests s) started in
    match disk env path with
    | DiskOk => (put (Table df), Return tt)
    | OpenDenied =>
        (mkState (files s) (dirs s) (stdout s) (requests s) started,
         Raise PermissionError)
    | FailsAfter n =>
        (put (Table (first_rows n df)), Raise OSError)
    end.

(** [yf.download(symbol_ns, start=... | period=..., interval=...)], with the
    columns already flat (the [droplevel] after each call). *)
Definition yf_download (env : Env) (req : Request) : IO DataFrame :=
  λ s, (mkState (files s) (dirs s) (stdout s) (requests s ++ [req]) (writes s),
        provider env req).

(** [datetime.now(tz)] *)
Definition datetime_now (env : Env) (tz : option TZ) : Timestamp :=
  mkTs tz (match tz with Some _ => now_utc env | None => now_local env end).

(** [timedelta(days=1)], in nanoseconds. *)
Definition one_day : Z := 86400 * 1000000000.

(** [Timestamp.max.value]: a [Timestamp] holds its nanoseconds in 64 bits. *)
Definition Timestamp_max : Z := 9223372036854775807.

(** [t + timedelta(days=1)], which pandas refuses when the sum is past
    [Timestamp.max]. *)
Definition add_day (t : Timestamp) : Exc Timestamp :=
  if value t + one_day <=? Timestamp_max
  then Return (mkTs (tzinfo t) (value t + one_day))
  else Raise OutOfBoundsDatetime.

(** [a < b] on timestamps that are both naive or both aware. *)
Definition ts_ltb (a b : Timestamp) : bool := value a <? value b.

(* ===================================================================== *)
(** * The script *)
(* ===================================================================== *)

Definition SOURCE_FILE : string := "EQUITY_L.csv".

(** The intervals and the longest period the provider serves for each, in
    the order of the dictionary. *)
Definition INTERVAL_LIMITS : list (string * string) :=
  [ ("1m", "7d"); ("2m", "60d"); ("5m", "60d"); ("15m", "60d");
    ("30m", "60d"); ("60m", "730d"); ("90m", "60d"); ("1h", "730d");
    ("1d", "max"); ("5d", "max"); ("1wk", "max"); ("1mo", "max");
    ("3mo", "max") ].

Definition MAX_WORKERS : nat := 4.

(** The characters the pattern of [sanitize_filename] removes; the double
    quote is character 34. *)
Definition invalid_chars : list ascii :=
  [ "<"; ">"; ":"; ascii_of_nat 34; "/"; "\"; "|"; "?"; "*" ]%char.

(** ASCII white space, as [str.strip()] sees it. A string here is a string
    of bytes; the white space outside ASCII that [strip] also removes is
    not modelled. *)
Definition is_space (c : ascii) : bool :=
  let n := nat_of_ascii c in
  ((9 <=? n)%nat && (n <=? 13)%nat) || ((28 <=? n)%nat && (n <=? 32)%nat).

Fixpoint lstrip (l : list ascii) : list ascii :=
  match l with
  | c :: rest => if is_space c then lstrip rest else l
  | [] => []
  end.

Definition strip (l : list ascii) : list ascii :=
  reverse (lstrip (reverse (lstrip l))).

Definition sanitize_filename (name : string) : string :=
  String.string_of_list_ascii
    (strip (filter (λ c, c ∉ invalid_chars) (String.list_ascii_of_string name))).

(** [os.path.join(a, b)] on a POSIX system. *)
Definition os_path_join (a b : string) : string :=
  match String.list_ascii_of_string b, last (String.list_ascii_of_string a) with
  | "/"%char :: _, _ => b
  | _, None => b
  | _, Some "/"%char => a +:+ b
  | _, Some _ => a +:+ "/" +:+ b
  end.

(** The intervals the provider serves from a start date (line 78). *)
Definition coarse_intervals : list string := ["1d"; "5d"; "1wk"; "1mo"; "3mo"].

(** Lines 51-66: the existing table, cleaned, and its last date; a file that
    does not parse counts as an empty table, with a line printed. *)
Definition load_existing (csv_file : string)
  : IO (DataFrame * option Timestamp) :=
  try_except
    (let* existing_df := read_csv csv_file in
     let existing_df := clean existing_df in
     if empty existing_df then ret (existing_df, None)
     else ret (existing_df, index_last existing_df))
    (λ e, let* _ := print (ErrorReading csv_file e) in
          ret (DataFrame_new, None)).

(** Lines 96-104 and 127-135, the body of the inner [try]. *)
Definition merge_and_save (env : Env) (existing_df new_data : DataFrame)
    (csv_file : string) : IO unit :=
  let* combined := lift (merge (localize env) existing_df new_data) in
  to_csv env combined csv_file.

(** Lines 49-163, the body of the outer [try] for one interval. *)
Definition sync_body (env : Env)
    (symbol_ns interval max_period csv_file : string) : IO unit :=
  let* file_exists := os_path_exists csv_file in
  if file_exists : bool then
    let* '(existing_df, last_date) := load_existing csv_file in
    match last_date with
    | Some last_date =>
        if bool_decide (interval ∈ coarse_intervals) then
          let* start_date := lift (add_day last_date) in
          if ts_ltb start_date (datetime_now env (tzinfo start_date)) then
            let* new_data :=
              yf_download env (mkReq symbol_ns interval (Start start_date)) in
            if negb (empty new_data) then
              let new_data := clean new_data in
              try_except
                (merge_and_save env existing_df new_data csv_file)
                (λ e_concat, print (ConcatFailed symbol_ns interval e_concat))
            else ret tt
          else ret tt
        else
          let* new_data :=
            yf_download env (mkReq symbol_ns interval (Period max_period)) in
          if negb (empty new_data) then
            let new_data := clean new_data in
            try_except
              (merge_and_save env existing_df new_data csv_file)
              (λ e_concat,
                 print (DebugConcatFailed symbol_ns interval e_concat))
          else ret tt
    | None =>
        let* data :=
          yf_download env (mkReq symbol_ns interval (Period max_period)) in
        if negb (empty data) then to_csv env (clean data) csv_file
        else ret tt
    end
  else
    let* data :=
      yf_download env (mkReq symbol_ns interval (Period max_period)) in
    if negb (empty data) then to_csv env data csv_file
    else ret tt.

(** One pass of the loop of [fetch_and_update]: the task of one (symbol,
    interval) pair, with the outer [except] around it. *)
Definition sync_interval (env : Env)
    (symbol_ns interval max_period csv_file : string) : IO unit :=
  try_except
    (sync_body env symbol_ns interval max_period csv_file)
    (λ e, print (FailedToFetch symbol_ns interval e)).

(** [for x in xs: body x] *)
Fixpoint for_each {A} (xs : list A) (body : A → IO unit) : IO unit :=
  match xs with
  | [] => ret tt
  | x :: rest => let* _ := body x in for_each rest body
  end.

Definition csv_file_of (company_dir ticker_symbol interval : string) : string :=
  os_path_join company_dir (ticker_symbol +:+ "_" +:+ interval +:+ ".csv").

Definition fetch_and_update (env : Env) (ticker_symbol company_name : string)
  : IO unit :=
  let clean_name := sanitize_filename company_name in
  let company_dir := os_path_join (cwd env) clean_name in
  let* dir_exists := os_path_exists company_dir in
  let* _ := if negb dir_exists then os_makedirs env company_dir else ret tt in
  let symbol_ns := ticker_symbol +:+ ".NS" in
  for_each INTERVAL_LIMITS (λ '(interval, max_period),
    sync_interval env symbol_ns interval max_period
      (csv_file_of company_dir ticker_symbol interval)).

(** The worker of the pool; the random sleep changes nothing in the state. *)
Definition fetch_worker (env : Env) (args : string * string) : IO string :=
  let '(symbol, company_name) := args in
  let* _ := fetch_and_update env symbol company_name in
  ret (symbol +:+ " done").

(** The loop of [main] over the submitted tasks, each result taken under
    [try]. The tasks are run one after the other, in the order given. *)
Definition run_tasks (env : Env) (tasks : list (string * string)) : IO unit :=
  for_each tasks (λ task,
    try_except (let* _ := fetch_worker env task in ret tt)
               (λ e, print (TaskFailed e))).

(* ===================================================================== *)
(** * Notions used to state the properties *)
(* ===================================================================== *)

(** Keeping, of the entries with the same key, the last one: what
    [xs[~keys.duplicated(keep='last')]] selects. *)
Fixpoint keep_last `{EqDecision K} {A} (key : A → K) (l : list A) : list A :=
  match l with
  | [] => []
  | x :: rest =>
      if bool_decide (key x ∈ key <$> rest) then keep_last key rest
      else x :: keep_last key rest
  end.

(** Every row has one cell per column. *)
Definition rectangular (df : DataFrame) : Prop :=
  Forall (λ r : Row, length r.2 = length (columns df)) (rows df).

(** The cells stored under index value [t]: those of the last such row. *)
Fixpoint row_at (rs : list Row) (t : Z) : option (list Cell) :=
  match rs with
  | [] => None
  | r :: rest =>
      match row_at rest t with
      | Some cells => Some cells
      | None => if bool_decide (r.1 = t) then Some r.2 else None
      end
  end.

(** The field of column [c] stored under index value [t]. *)
Definition field_at (df : DataFrame) (t : Z) (c : string) : option Cell :=
  cells ← row_at (rows df) t; cell_of (columns df) cells c.

(** The columns of [pd.concat([a, b])]. *)
Definition concat_columns (a b : DataFrame) : list string :=
  if bool_decide (columns a = columns b) then columns a
  else columns a ++ new_columns (columns a) (columns b).

(** How the cells of a row of [side] (one of [a], [b]) are laid out in
    [pd.concat([a, b])]. *)
Definition laid_cells (a b side : DataFrame) (cells : list Cell) : list Cell :=
  if bool_decide (columns a = columns b) then cells
  else relay (columns side) (concat_columns a b) cells.

Definition laid (a b side : DataFrame) (r : Row) : Row :=
  (r.1, laid_cells a b side r.2).

Definition laid_rows (a b side : DataFrame) : list Row :=
  laid a b side <$> rows side.

(** How a laid out row is brought to the dtypes of [pd.concat([a, b])]. *)
Definition cast_cells (a b : DataFrame) : list Cell → list Cell :=
  upcast_cells (laid_rows a b a) (laid_rows a b b).

Definition cast (a b : DataFrame) (r : Row) : Row :=
  (r.1, cast_cells a b r.2).

(** The place of column [c] among [cols]: that of its first occurrence. *)
Fixpoint position (cols : list string) (c : string) : nat :=
  match cols with
  | [] => 0
  | c' :: cols' => if bool_decide (c' = c) then 0 else S (position cols' c)
  end.

(** Column [c] of a table holds an int64 in some row (and so, a column
    having one dtype, in every row). *)
Definition int64_under (df : DataFrame) (c : string) : Prop :=
  ∃ r n, r ∈ rows df ∧ cell_of (columns df) r.2 c = Some (Int64 n).

(** Ascending index. *)
Definition ascending (l : list Z) : Prop := StronglySorted Z.lt l.

(** The exception a failing write raises. *)
Definition write_error (d : Disk) : option Exn :=
  match d with
  | DiskOk => None
  | OpenDenied => Some PermissionError
  | FailsAfter _ => Some OSError
  end.

(** What the archive path holds after a write of [df] was started. *)
Definition after_write (d : Disk) (path : string) (df : DataFrame)
    (fs : gmap string File) : gmap string File :=
  match d with
  | DiskOk => <[path := Table df]> fs
  | OpenDenied => fs
  | FailsAfter n => <[path := Table (first_rows n df)]> fs
  end.

(** An archive path holds no table with a repeated timestamp. *)
Definition duplicate_free (f : option File) : Prop :=
  match f with
  | Some (Table df) => NoDup (index df)
  | _ => True
  end.

(** A printed line that reports exception [e] for the task of [symbol_ns]
    and [interval]. *)
Definition reports (symbol_ns interval : string) (e : Exn) (m : Msg) : Prop :=
  m = FailedToFetch symbol_ns interval e
  ∨ m = ConcatFailed symbol_ns interval e
  ∨ m = DebugConcatFailed symbol_ns interval e.

(** ** Sample tables and worlds *)

Definition bar (t close : Z) : Row := (t, [Num close]).

Definition frame (tz : option TZ) (rs : list Row) : DataFrame :=
  mkDF tz ["Close"] rs.

Definition kolkata : TZ := "Asia/Kolkata".

(** A zone database in which Kolkata is UTC+05:30 and every other name
    is UTC. *)
Definition fixed_offset_zones (tz : TZ) (w : Z) : option Z :=
  if bool_decide (tz = kolkata) then Some (w - 19800 * 1000000000)
  else Some w.

Definition demo_env (p : Request → Exc DataFrame) (now : Z) (d : Disk) : Env :=
  mkEnv p now now fixed_offset_zones (λ _, d) (λ _, true) "/data".

(** A provider that answers one request only: the one from [start]. *)
Definition answers_from (start : Z) (data : DataFrame) (req : Request)
  : Exc DataFrame :=
  match req_range req with
  | Start t => if value t =? start then Return data
               else Raise (ProviderError "no data")
  | Period _ => Raise (ProviderError "no data")
  end.

Definition blank_state : State := mkState ∅ ∅ [] [] [].

Definition state_with (path : string) (f : File) : State :=
  mkState {[path := f]} ∅ [] [] [].

Definition daily_csv : string := "/data/X/X_1d.csv".
Definition minute_csv : string := "/data/X/X_1m.csv".

Definition is_task_failed (m : Msg) : bool :=
  match m with TaskFailed _ => true | _ => false end.

(** ** Names and paths *)

(** The characters of a string. *)
Definition chars (s : string) : list ascii := String.list_ascii_of_string s.

(** No white space at either end. *)
Definition stripped (l : list ascii) : Prop :=
  (∀ c, head l = Some c → is_space c = false)
  ∧ (∀ c, last l = Some c → is_space c = false).

(** What [os.path.join] puts between a first part and a relative second
    part. *)
Definition join_separator (a : string) : string :=
  match last (chars a) with
  | None => ""
  | Some c => if bool_decide (c = "/"%char) then "" else "/"
  end.

(** ** Requests and runs *)

(** A request the task of [interval] may send, [p] being the period the
    table gives the interval: for the symbol and the interval, and either
    for that period or, when the interval is daily or coarser, from a start
    date. *)
Definition task_request (symbol_ns interval p : string) (r : Request) : Prop :=
  req_symbol r = symbol_ns ∧ req_interval r = interval
  ∧ (req_range r = Period p
     ∨ (interval ∈ coarse_intervals ∧ ∃ t, req_range r = Start t)).

(** The state after a line was printed. *)
Definition printed (m : Msg) (s : State) : State :=
  mkState (files s) (dirs s) (stdout s ++ [m]) (requests s) (writes s).

(** The directory of a company and the archive paths of a symbol in it. *)
Definition company_dir_of (env : Env) (company_name : string) : string :=
  os_path_join (cwd env) (sanitize_filename company_name).

Definition csv_files_of (company_dir ticker_symbol : string) : list string :=
  (λ interval, csv_file_of company_dir ticker_symbol interval)
    <$> INTERVAL_LIMITS.*1.

(** The state after a directory was made. *)
Definition made_dir (path : string) (s : State) : State :=
  mkState (files s) ({[path]} ∪ dirs s) (stdout s) (requests s) (writes s).

(** The loop of [fetch_and_update] over the table. *)
Definition sync_all (env : Env) (ticker_symbol company_dir : string)
  : IO unit :=
  for_each INTERVAL_LIMITS (λ '(interval, max_period),
    sync_interval env (ticker_symbol +:+ ".NS") interval max_period
      (csv_file_of company_dir ticker_symbol interval)).

(** Unfolding of the task down to the state it computes on. *)
Ltac io_unfold :=
  unfold sync_interval, sync_body, load_existing, merge_and_save,
    try_except, bind, lift, ret, raise, os_path_exists, read_csv,
    yf_download, to_csv, print in *.

(* ===================================================================== *)
(** * Facts about the table operations *)
(* ===================================================================== *)

Section Dedup.
Context `{EqDecision K} {A : Type} (key : A → K).
Implicit Types l : list A.

Lemma select_duplicated_last l :
  select (negb <$> duplicated_last (key <$> l)) l = keep_last key l.
Proof.
  induction l as [|x l IH]; [done|].
  cbn [fmap list_fmap duplicated_last keep_last select].
  change (list_fmap A K key l) with (key <$> l).
  change (list_fmap bool bool negb (duplicated_last (key <$> l)))
    with (negb <$> duplicated_last (key <$> l)).
  destruct (bool_decide (key x ∈ key <$> l)); cbn; by rewrite IH.
Qed.

Lemma keep_last_keys l k : k ∈ key <$> keep_last key l ↔ k ∈ key <$> l.
Proof.
  induction l as [|x l IH]; [done|]. cbn [keep_last].
  destruct (bool_decide_reflect (key x ∈ key <$> l)) as [Hx|Hx].
  - rewrite IH, fmap_cons, elem_of_cons.
    split; [auto | intros [-> | ?]; auto].
  - rewrite !fmap_cons, !elem_of_cons, IH. done.
Qed.

Lemma keep_last_NoDup l : NoDup (key <$> keep_last key l).
Proof.
  induction l as [|x l IH]; [constructor|]. cbn [keep_last].
  destruct (bool_decide_reflect (key x ∈ key <$> l)) as [Hx|Hx]; [done|].
  rewrite fmap_cons. constructor; [|done]. by rewrite keep_last_keys.
Qed.

Lemma keep_last_id l : NoDup (key <$> l) → keep_last key l = l.
Proof.
  induction l as [|x l IH]; [done|].
  rewrite fmap_cons, NoDup_cons. intros [Hx Hl]. cbn [keep_last].
  rewrite bool_decide_eq_false_2 by done. by rewrite IH.
Qed.

Lemma keep_last_idemp l : keep_last key (keep_last key l) = keep_last key l.
Proof. apply keep_last_id, keep_last_NoDup. Qed.

Lemma keep_last_app l1 l2 :
  keep_last key (l1 ++ l2)
  = filter (λ x, key x ∉ key <$> l2) (keep_last key l1) ++ keep_last key l2.
Proof.
  induction l1 as [|x l1 IH]; [done|].
  cbn [app keep_last].
  destruct (bool_decide_reflect (key x ∈ key <$> (l1 ++ l2))) as [Hx|Hx];
    rewrite fmap_app, elem_of_app in Hx.
  - rewrite IH.
    destruct (bool_decide_reflect (key x ∈ key <$> l1)) as [Hx1|Hx1];
      [done|].
    rewrite filter_cons_False; [done|].
    intros Hn. destruct Hx as [Hx|Hx]; auto.
  - rewrite bool_decide_eq_false_2 by tauto.
    rewrite filter_cons_True by tauto. by rewrite IH.
Qed.

Lemma keep_last_nil_inv l : keep_last key l = [] → l = [].
Proof.
  destruct l as [|x l]; [done|]. intros Hnil.
  assert (key x ∈ key <$> keep_last key (x :: l)) as Hin.
  { rewrite keep_last_keys, fmap_cons. left. }
  rewrite Hnil in Hin. by apply elem_of_nil in Hin.
Qed.
End Dedup.

Lemma keep_last_fmap `{EqDecision K} {A B} (key : B → K) (g : A → B)
    (l : list A) :
  keep_last key (g <$> l) = g <$> keep_last (key ∘ g) l.
Proof.
  induction l as [|x l IH]; [done|].
  cbn [fmap list_fmap keep_last].
  change (list_fmap A B g l) with (g <$> l).
  rewrite <- list_fmap_compose.
  change (list_fmap A K (key ∘ g) l) with ((key ∘ g) <$> l).
  unfold compose at 3.
  destruct (bool_decide (key (g x) ∈ (key ∘ g) <$> l)); [done|].
  by rewrite fmap_cons, IH.
Qed.

Lemma keep_last_ext `{EqDecision K} {A} (key key' : A → K) (l : list A) :
  (∀ x, key x = key' x) → keep_last key l = keep_last key' l.
Proof.
  intros Hk. induction l as [|x l IH]; [done|]. cbn [keep_last].
  rewrite IH, Hk. by rewrite (list_fmap_ext key key' l) by auto.
Qed.

Lemma keep_last_filter_in `{EqDecision K} {A} (key : A → K) (l : list A)
    (ks : list K) :
  (∀ x, x ∈ l → key x ∈ ks) → filter (λ x, key x ∉ ks) l = [].
Proof.
  intros Hin. induction l as [|x l IH]; [done|].
  rewrite filter_cons_False.
  - apply IH. intros y Hy. apply Hin. by right.
  - intros Hn. apply Hn, Hin. by left.
Qed.


(** ** Duplicate tests *)

Lemma has_duplicates_false `{EqDecision A} (l : list A) :
  has_duplicates l = false → NoDup l.
Proof.
  unfold has_duplicates. induction l as [|x l IH]; [constructor|].
  cbn [duplicated_last existsb]. intros H.
  apply orb_false_iff in H as [Hx Hl]. unfold id in Hx.
  apply bool_decide_eq_false in Hx. constructor; auto.
Qed.

Lemma has_duplicates_true `{EqDecision A} (l : list A) :
  has_duplicates l = true → ¬ NoDup l.
Proof.
  unfold has_duplicates. induction l as [|x l IH]; [done|].
  cbn [duplicated_last existsb]. intros H Hnd.
  apply NoDup_cons in Hnd as [Hx Hl].
  apply orb_true_iff in H as [H|H]; [|by apply IH].
  unfold id in H. by apply bool_decide_eq_true in H.
Qed.

Lemma select_duplicated_first_from `{EqDecision A} (seen l : list A) :
  let kept := select (negb <$> duplicated_first_from seen l) l in
  NoDup kept ∧ (∀ x, x ∈ kept ↔ x ∈ l ∧ x ∉ seen).
Proof.
  revert seen. induction l as [|x l IH]; intros seen kept.
  - split; [constructor|]. intros x. subst kept. cbn.
    rewrite elem_of_nil. tauto.
  - subst kept. cbn [duplicated_first_from fmap list_fmap select].
    destruct (IH (x :: seen)) as [Hnd Hin]. cbn zeta in Hin.
    change (list_fmap bool bool negb (duplicated_first_from (x :: seen) l))
      with (negb <$> duplicated_first_from (x :: seen) l).
    destruct (bool_decide_reflect (x ∈ seen)) as [Hx|Hx]; cbn [negb].
    + split; [done|]. intros y. rewrite Hin, !elem_of_cons.
      split; [tauto|]. intros [[->|?] ?]; [done|]. split; [done|].
      intros [->|?]; done.
    + split.
      * constructor; [|done]. rewrite Hin, elem_of_cons. tauto.
      * intros y. rewrite !elem_of_cons, Hin, elem_of_cons.
        split; [intros [->|?]; tauto|].
        destruct (decide (y = x)); tauto.
Qed.

Lemma select_duplicated_first_NoDup `{EqDecision A} (l : list A) :
  NoDup (select (negb <$> duplicated_first l) l).
Proof. apply (select_duplicated_first_from [] l). Qed.

Lemma select_length {A B} (mask : list bool) (l : list A) (l' : list B) :
  length l = length l' → length (select mask l) = length (select mask l').
Proof.
  revert l l'. induction mask as [|b mask IH]; intros [|x l] [|y l'] Hlen;
    try done; destruct b; cbn in *; auto.
Qed.

(** ** Cleaning *)

Lemma rows_drop_index_duplicates df :
  rows (drop_index_duplicates df) = keep_last fst (rows df).
Proof. apply select_duplicated_last. Qed.

Lemma index_keep_last (rs : list Row) :
  fst <$> keep_last fst rs = keep_last id (fst <$> rs).
Proof. by rewrite (keep_last_fmap id fst). Qed.

Lemma index_drop_index_duplicates df :
  index (drop_index_duplicates df) = keep_last id (index df).
Proof.
  unfold index. by rewrite rows_drop_index_duplicates, index_keep_last.
Qed.

Lemma drop_index_duplicates_NoDup df : NoDup (index (drop_index_duplicates df)).
Proof.
  unfold index. rewrite rows_drop_index_duplicates. apply keep_last_NoDup.
Qed.

Lemma index_drop_column_duplicates df :
  index (drop_column_duplicates df) = index df.
Proof.
  unfold index, drop_column_duplicates. cbn [rows].
  rewrite <- list_fmap_compose. by apply list_fmap_ext.
Qed.

Lemma clean_index_NoDup df : NoDup (index (clean df)).
Proof.
  unfold clean.
  assert (NoDup (index (if has_duplicates (index df)
                        then drop_index_duplicates df else df))) as H1.
  { destruct (has_duplicates (index df)) eqn:Hd.
    - apply drop_index_duplicates_NoDup.
    - by apply has_duplicates_false. }
  cbn zeta. destruct (has_duplicates (columns _)); [|done].
  by rewrite index_drop_column_duplicates.
Qed.

Lemma clean_columns_NoDup df : NoDup (columns (clean df)).
Proof.
  unfold clean. cbn zeta. destruct (has_duplicates (columns _)) eqn:Hd.
  - apply select_duplicated_first_NoDup.
  - by apply has_duplicates_false.
Qed.

Lemma drop_index_duplicates_rectangular df :
  rectangular df → rectangular (drop_index_duplicates df).
Proof.
  unfold rectangular. rewrite rows_drop_index_duplicates.
  change (columns (drop_index_duplicates df)) with (columns df).
  generalize (length (columns df)). intros n.
  induction (rows df) as [|r rs IH]; intros H; [constructor|].
  apply Forall_cons in H as [Hr Hrs]. cbn [keep_last].
  destruct (bool_decide _); [auto|]. constructor; auto.
Qed.

Lemma drop_column_duplicates_rectangular df :
  rectangular df → rectangular (drop_column_duplicates df).
Proof.
  unfold rectangular, drop_column_duplicates. cbn [rows columns].
  intros H. apply Forall_fmap. eapply Forall_impl; [exact H|].
  intros r Hr. cbn. by apply select_length.
Qed.

Lemma clean_rectangular df : rectangular df → rectangular (clean df).
Proof.
  intros H. unfold clean. cbn zeta.
  assert (rectangular (if has_duplicates (index df)
                       then drop_index_duplicates df else df)) as H1.
  { destruct (has_duplicates (index df));
      [by apply drop_index_duplicates_rectangular | done]. }
  destruct (has_duplicates (columns _));
    [by apply drop_column_duplicates_rectangular | done].
Qed.

Lemma clean_index_tz df : index_tz (clean df) = index_tz df.
Proof.
  unfold clean. cbn zeta.
  destruct (has_duplicates (index df)), (has_duplicates (columns _)); done.
Qed.

Lemma has_duplicates_NoDup `{EqDecision A} (l : list A) :
  NoDup l → has_duplicates l = false.
Proof.
  intros Hnd. destruct (has_duplicates l) eqn:Hd; [|done].
  by apply has_duplicates_true in Hd.
Qed.

(** ** Zone alignment *)

Lemma exc_mapM_Return {A B} (f : A → Exc B) (l : list A) (l' : list B) :
  exc_mapM f l = Return l' ↔ Forall2 (λ x y, f x = Return y) l l'.
Proof.
  revert l'. induction l as [|x l IH]; intros l'; cbn [exc_mapM].
  - split; [intros [= <-]; constructor | by inversion 1].
  - split.
    + destruct (f x) as [y|e] eqn:Hfx; cbn; [|done].
      destruct (exc_mapM f l) as [ys|e] eqn:Hl; cbn; [|done].
      intros [= <-]. constructor; [done|]. by apply IH.
    + inversion 1 as [|? y ? ys Hfx Hrest]; subst.
      apply IH in Hrest. by rewrite Hfx, Hrest.
Qed.


(** What cleaning leaves: of the rows with the same timestamp the last, and
    of the columns with the same name the first. *)
Lemma clean_index df : index (clean df) = keep_last id (index df).
Proof.
  unfold clean. cbn zeta.
  assert (index (if has_duplicates (index df)
                 then drop_index_duplicates df else df)
          = keep_last id (index df)) as <-.
  { destruct (has_duplicates (index df)) eqn:Hd.
    - apply index_drop_index_duplicates.
    - rewrite keep_last_id; [done|]. rewrite list_fmap_id.
      by apply has_duplicates_false. }
  destruct (has_duplicates (columns _)); [|done].
  apply index_drop_column_duplicates.
Qed.


(** What [tz_localize] returns when it returns: the same rows, each index
    value replaced by the instant the zone gives its wall time. *)
Lemma tz_localize_Return loc tz df df' :
  tz_localize loc tz df = Return df' →
  index_tz df = None ∧ index_tz df' = Some tz ∧ columns df' = columns df
  ∧ Forall2 (λ r r' : Row, loc tz r.1 = Some r'.1 ∧ r'.2 = r.2)
            (rows df) (rows df').
Proof.
  unfold tz_localize. destruct (index_tz df); [done|].
  destruct (exc_mapM _ _) as [rs|e] eqn:Hm; cbn; [|done].
  intros [= <-]. cbn. repeat split.
  apply exc_mapM_Return in Hm. eapply Forall2_impl; [exact Hm|].
  intros r r'. cbn. destruct (loc tz r.1); [|done]. by intros [= <-].
Qed.

(** It returns whenever every wall time of the naive index exists in the
    zone. *)
Lemma tz_localize_total loc tz df :
  index_tz df = None → (∀ t, t ∈ index df → is_Some (loc tz t)) →
  ∃ df', tz_localize loc tz df = Return df'.
Proof.
  unfold tz_localize, index. intros -> Hloc.
  assert (∃ rs, exc_mapM (λ r : Row,
            match loc tz r.1 with
            | Some v => Return (v, r.2)
            | None => Raise AmbiguousTimeError
            end) (rows df) = Return rs) as [rs ->]; [|by eexists].
  induction (rows df) as [|r rs IH]; [by eexists|].
  cbn [exc_mapM]. destruct (Hloc r.1) as [v ->]; [rewrite fmap_cons; by left|].
  destruct IH as [rs' ->]; [|by eexists].
  intros t Ht. apply Hloc. rewrite fmap_cons. by right.
Qed.

Lemma tz_localize_rows_nil loc tz df df' :
  tz_localize loc tz df = Return df' → rows df' = [] → rows df = [].
Proof.
  intros H Hnil. apply tz_localize_Return in H as (_ & _ & _ & H).
  rewrite Hnil in H. by inversion H.
Qed.

Lemma tz_localize_empty loc tz df df' :
  tz_localize loc tz df = Return df' → empty df' = empty df.
Proof.
  intros H. apply tz_localize_Return in H as (_ & _ & Hc & H).
  unfold empty. rewrite Hc. by destruct H.
Qed.

Lemma tz_localize_rectangular loc tz df df' :
  tz_localize loc tz df = Return df' → rectangular df → rectangular df'.
Proof.
  intros H. apply tz_localize_Return in H as (_ & _ & Hc & H).
  unfold rectangular. rewrite Hc. generalize (length (columns df)). intros n.
  induction H as [|r r' rs rs' [_ Hr]]; intros Hrect; [constructor|].
  apply Forall_cons in Hrect as [? ?]. constructor; [congruence|auto].
Qed.

(** What the alignment step returns when it returns. *)
Lemma align_timezones_Return loc e n e' n' :
  align_timezones loc e n = Return (e', n') →
  columns e' = columns e ∧ columns n' = columns n
  ∧ empty e' = empty e ∧ empty n' = empty n
  ∧ (rectangular n → rectangular n').
Proof.
  unfold align_timezones. destruct (negb (empty e)).
  - destruct (index_tz e) as [tz|], (index_tz n) as [tz'|];
      try (intros [= <- <-]; done).
    + destruct (tz_localize loc tz n) as [n1|] eqn:Hn; cbn; [|done].
      intros [= <- <-]. pose proof (tz_localize_Return _ _ _ _ Hn) as (_&_&?&_).
      repeat split; eauto using tz_localize_empty, tz_localize_rectangular.
    + destruct (tz_localize loc tz' e) as [e1|] eqn:He; cbn; [|done].
      intros [= <- <-]. pose proof (tz_localize_Return _ _ _ _ He) as (_&_&?&_).
      repeat split; eauto using tz_localize_empty.
  - by intros [= <- <-].
Qed.

(** ** Concatenation *)

Lemma laid_fst a b side r : (laid a b side r).1 = r.1.
Proof. done. Qed.

Lemma cast_fst a b r : (cast a b r).1 = r.1.
Proof. done. Qed.

Lemma laid_rows_same a b side :
  columns a = columns b → laid_rows a b side = rows side.
Proof.
  intros Heq. unfold laid_rows, laid, laid_cells.
  rewrite bool_decide_eq_true_2 by done.
  rewrite (list_fmap_ext (λ r : Row, (r.1, r.2)) id) by (by intros ? []).
  by rewrite list_fmap_id.
Qed.

Lemma concat_Return a b c :
  concat a b = Return c →
  index_tz c = (match rows a with [] => index_tz b | _ => index_tz a end)
  ∧ columns c = concat_columns a b
  ∧ rows c = cast a b <$> laid_rows a b a ++ laid_rows a b b
  ∧ (columns a ≠ columns b → NoDup (columns a) ∧ NoDup (columns b)).
Proof.
  unfold concat, cast, cast_cells.
  destruct (bool_decide_reflect (columns a = columns b)) as [Heq|Hne].
  - intros [= <-]. cbn. rewrite !laid_rows_same by done.
    unfold concat_columns. by rewrite bool_decide_eq_true_2.
  - destruct (has_duplicates (columns a)) eqn:Ha; [done|].
    destruct (has_duplicates (columns b)) eqn:Hb; [done|].
    intros [= <-]. cbn. unfold laid_rows, laid, laid_cells, concat_columns.
    rewrite bool_decide_eq_false_2 by done.
    split; [done|]. split; [done|]. split; [done|].
    intros _. split; by apply has_duplicates_false.
Qed.

Lemma concat_total a b :
  NoDup (columns a) → NoDup (columns b) → ∃ c, concat a b = Return c.
Proof.
  intros Ha Hb. unfold concat. destruct (bool_decide _); [by eexists|].
  rewrite !has_duplicates_NoDup by done. by eexists.
Qed.

Lemma index_concat a b c : concat a b = Return c → index c = index a ++ index b.
Proof.
  intros H. apply concat_Return in H as (_ & _ & Hr & _).
  unfold index. rewrite Hr. unfold laid_rows.
  rewrite <- list_fmap_compose, fmap_app, <- !list_fmap_compose.
  f_equal; apply list_fmap_ext; intros; apply laid_fst.
Qed.

(** ** Looking up rows and cells *)

Lemma row_at_is_Some rs t : is_Some (row_at rs t) ↔ t ∈ fst <$> rs.
Proof.
  induction rs as [|r rs IH]; cbn [row_at].
  - rewrite fmap_nil, elem_of_nil. split; [by intros [? ?]|done].
  - rewrite fmap_cons, elem_of_cons, <- IH.
    destruct (row_at rs t) as [cells|].
    + split; eauto.
    + destruct (bool_decide_reflect (r.1 = t)) as [Hr|Hr].
      * split; eauto.
      * split; [by intros [? ?]|]. intros [?|[? ?]]; done.
Qed.

Lemma row_at_app_r l1 l2 t :
  t ∈ fst <$> l2 → row_at (l1 ++ l2) t = row_at l2 t.
Proof.
  intros Ht. apply row_at_is_Some in Ht as [cells Hc].
  induction l1 as [|r l1 IH]; [done|]. cbn [app row_at]. by rewrite IH, Hc.
Qed.

Lemma row_at_keep_last rs t : row_at (keep_last fst rs) t = row_at rs t.
Proof.
  induction rs as [|r rs IH]; [done|]. cbn [keep_last row_at].
  destruct (bool_decide_reflect (r.1 ∈ fst <$> rs)) as [Hr|Hr].
  - rewrite IH. destruct (row_at rs t) as [cells|] eqn:Hc; [done|].
    rewrite bool_decide_eq_false_2; [done|]. intros <-.
    apply row_at_is_Some in Hr as [? ?]. congruence.
  - cbn [row_at]. by rewrite IH.
Qed.

Lemma row_at_fmap (h : list Cell → list Cell) rs t :
  row_at ((λ r : Row, (r.1, h r.2)) <$> rs) t = h <$> row_at rs t.
Proof.
  induction rs as [|r rs IH]; [done|]. rewrite fmap_cons. cbn [row_at].
  rewrite IH. destruct (row_at rs t); [done|]. cbn.
  by destruct (bool_decide _).
Qed.

Lemma row_at_elem_of rs t cells : row_at rs t = Some cells → (t, cells) ∈ rs.
Proof.
  induction rs as [|r rs IH]; [done|]. cbn [row_at].
  destruct (row_at rs t) as [cells'|].
  - intros [= ->]. right. by apply IH.
  - destruct (bool_decide_reflect (r.1 = t)) as [<-|]; [|done].
    intros [= <-]. destruct r. left.
Qed.

Lemma cell_of_fmap (h : string → Cell) (cols : list string) c :
  c ∈ cols → cell_of cols (h <$> cols) c = Some (h c).
Proof.
  induction cols as [|c' cols IH]; [by intros ?%elem_of_nil|].
  rewrite fmap_cons. cbn [cell_of].
  destruct (bool_decide_reflect (c' = c)) as [->|Hne]; [done|].
  intros [?|?]%elem_of_cons; [congruence|auto].
Qed.

Lemma cell_of_is_Some cols cells c :
  c ∈ cols → length cells = length cols → is_Some (cell_of cols cells c).
Proof.
  revert cells. induction cols as [|c' cols IH]; intros [|x cells] Hc Hlen;
    try done; [by apply elem_of_nil in Hc|]. cbn [cell_of].
  destruct (bool_decide_reflect (c' = c)) as [->|Hne]; [eauto|].
  apply elem_of_cons in Hc as [?|?]; [congruence|]. apply IH; [done|].
  cbn in Hlen. congruence.
Qed.

(** The conversion to float64 leaves what is not an int64, and leaves no
    int64. *)
Lemma astype_float64_id c : is_int64 (Some c) = false → astype_float64 c = c.
Proof. by destruct c. Qed.


Lemma astype_float64_cases c :
  astype_float64 c = c
  ∨ ∃ n, c = Int64 n ∧ astype_float64 c = Num (float64_of_int n).
Proof. destruct c; eauto. Qed.

Lemma cell_of_imap (f : nat → Cell → Cell) cols cells c :
  ∃ j, cell_of cols (imap f cells) c = f j <$> cell_of cols cells c.
Proof.
  revert f cells. induction cols as [|c' cols IH]; intros f [|x cells];
    try (by exists 0%nat).
  cbn [imap cell_of]. destruct (bool_decide (c' = c)); [by exists 0%nat|].
  destruct (IH (f ∘ S) cells) as [j Hj]. by exists (S j).
Qed.

Lemma cell_of_cast_cells a b cols cells c :
  cell_of cols (cast_cells a b cells) c = cell_of cols cells c
  ∨ cell_of cols (cast_cells a b cells) c
    = astype_float64 <$> cell_of cols cells c.
Proof.
  unfold cast_cells, upcast_cells.
  destruct (cell_of_imap
              (λ j c, if float_column (laid_rows a b a) j
                         || float_column (laid_rows a b b) j
                      then astype_float64 c else c) cols cells c) as [j ->].
  destruct (_ || _); [by right|left]. by destruct (cell_of cols cells c).
Qed.


Lemma float_column_true rs j :
  float_column rs j = true
  ↔ rs ≠ [] ∧ ∀ r : Row, r ∈ rs → is_int64 (r.2 !! j) = false.
Proof.
  unfold float_column. destruct rs as [|r0 rs]; [by split; [|intros [? _]]|].
  rewrite forallb_forall. split.
  - intros H. split; [done|]. intros r Hr%list_elem_of_In.
    by apply negb_true_iff, H.
  - intros [_ H] r Hr%list_elem_of_In. by apply negb_true_iff, H.
Qed.

Lemma upcast_cells_lookup ra rb cells j :
  upcast_cells ra rb cells !! j
  = (λ c, if float_column ra j || float_column rb j
          then astype_float64 c else c) <$> cells !! j.
Proof. apply list_lookup_imap. Qed.


(** A side merged with itself keeps its cells. *)
Lemma upcast_self rs r : r ∈ rs → upcast rs rs r = r.
Proof.
  intros Hr. destruct r as [t cells]. unfold upcast. cbn [fst snd]. f_equal.
  apply list_eq. intros j. rewrite upcast_cells_lookup, orb_diag.
  destruct (cells !! j) as [c|] eqn:Hc; [|done]. cbn. f_equal.
  destruct (float_column rs j) eqn:Hj; [|done].
  apply float_column_true in Hj as [_ Hj]. specialize (Hj _ Hr). cbn in Hj.
  rewrite Hc in Hj. by apply astype_float64_id.
Qed.




Lemma concat_columns_NoDup a b :
  NoDup (columns a) → NoDup (columns b) → NoDup (concat_columns a b).
Proof.
  intros Ha Hb. unfold concat_columns. destruct (bool_decide _); [done|].
  apply NoDup_app. split; [done|]. split.
  - unfold new_columns. intros c Hc Hc'.
    by apply list_elem_of_filter in Hc' as [? ?].
  - by apply NoDup_filter.
Qed.

Lemma concat_columns_r a b c : c ∈ columns b → c ∈ concat_columns a b.
Proof.
  unfold concat_columns. intros Hc.
  destruct (bool_decide_reflect (columns a = columns b)) as [->|_]; [done|].
  rewrite elem_of_app. destruct (decide (c ∈ columns a)); [by left|right].
  unfold new_columns. by apply list_elem_of_filter.
Qed.

Lemma concat_columns_l a b c : c ∈ columns a → c ∈ concat_columns a b.
Proof.
  unfold concat_columns. intros Hc. destruct (bool_decide _); [done|].
  rewrite elem_of_app. by left.
Qed.

Lemma cell_of_position cols cells c :
  c ∈ cols → cell_of cols cells c = cells !! position cols c.
Proof.
  revert cells. induction cols as [|c' cols IH]; intros cells Hc;
    [by apply elem_of_nil in Hc|].
  destruct cells as [|x cells]; [done|]. cbn [cell_of position].
  destruct (bool_decide_reflect (c' = c)) as [->|Hne]; [done|].
  apply elem_of_cons in Hc as [?|?]; [congruence|]. by apply IH.
Qed.

Lemma cell_of_elem_of cols cells c v : cell_of cols cells c = Some v → c ∈ cols.
Proof.
  revert cells. induction cols as [|c' cols IH]; intros [|x cells]; try done.
  cbn [cell_of]. destruct (bool_decide_reflect (c' = c)) as [->|Hne].
  - intros _. left.
  - intros H. right. by apply (IH cells).
Qed.

(** A column that is int64 on a side is not float64 on that side after
    the rows are laid out. *)
Lemma float_column_int64 a b side c :
  (side = a ∨ side = b) → int64_under side c →
  float_column (laid_rows a b side) (position (concat_columns a b) c) = false.
Proof.
  intros Hside (r & n & Hr & Hcell).
  pose proof (cell_of_elem_of _ _ _ _ Hcell) as Hc.
  assert (c ∈ concat_columns a b) as HcU.
  { destruct Hside as [-> | ->];
      [by apply concat_columns_l|by apply concat_columns_r]. }
  destruct (float_column _ _) eqn:Hf; [|done].
  apply float_column_true in Hf as [_ Hf].
  specialize (Hf (laid a b side r)).
  rewrite <- cell_of_position in Hf by done. cbn in Hf.
  assert (cell_of (concat_columns a b) (laid_cells a b side r.2) c
          = Some (Int64 n)) as Hlaid.
  { unfold laid_cells.
    destruct (bool_decide_reflect (columns a = columns b)) as [Heq|Hne].
    - assert (concat_columns a b = columns side) as ->; [|done].
      unfold concat_columns. rewrite bool_decide_eq_true_2 by done.
      destruct Hside as [-> | ->]; done.
    - unfold relay. by rewrite cell_of_fmap, Hcell. }
  rewrite Hlaid in Hf. cbn in Hf. apply Hf.
  apply list_elem_of_fmap. eauto.
Qed.

(** A column that is int64 on both sides keeps its cells in the merge. *)
Lemma cell_of_cast_int64 a b cells c :
  int64_under a c → int64_under b c →
  cell_of (concat_columns a b) (cast_cells a b cells) c
  = cell_of (concat_columns a b) cells c.
Proof.
  intros Ha Hb.
  assert (c ∈ concat_columns a b) as HcU.
  { destruct Ha as (r & n & _ & Hcell).
    eapply concat_columns_l, cell_of_elem_of, Hcell. }
  rewrite !cell_of_position by done. unfold cast_cells.
  rewrite upcast_cells_lookup.
  rewrite (float_column_int64 a b a), (float_column_int64 a b b) by auto.
  by destruct (cells !! _).
Qed.

(** ** The merge *)

Lemma merge_Return loc A B R :
  merge loc A B = Return R →
  ∃ A1 B1 C, align_timezones loc A B = Return (A1, B1)
             ∧ concat A1 B1 = Return C ∧ R = drop_index_duplicates C.
Proof.
  unfold merge. destruct (align_timezones loc A B) as [[A1 B1]|] eqn:Ha;
    cbn; [|done].
  destruct (concat A1 B1) as [C|] eqn:Hc; cbn; [|done].
  intros [= <-]. by exists A1, B1, C.
Qed.

Lemma filter_fmap_key {A} (key : A → Z) (ks : list Z) (g : A → A) (l : list A) :
  (∀ x, key (g x) = key x) →
  filter (λ x, key x ∉ ks) (g <$> l) = g <$> filter (λ x, key x ∉ ks) l.
Proof.
  intros Hg. induction l as [|x l IH]; [done|]. rewrite fmap_cons.
  destruct (decide (key x ∈ ks)) as [Hx|Hx].
  - rewrite !filter_cons_False by (rewrite ?Hg; tauto). done.
  - rewrite !filter_cons_True by (rewrite ?Hg; tauto).
    by rewrite fmap_cons, IH.
Qed.

Lemma index_filter (ks : list Z) (l : list Row) :
  fst <$> filter (λ r : Row, r.1 ∉ ks) l = filter (λ t, t ∉ ks) (fst <$> l).
Proof.
  induction l as [|x l IH]; [done|]. rewrite fmap_cons.
  destruct (decide (x.1 ∈ ks)) as [Hx|Hx].
  - by rewrite !filter_cons_False by tauto.
  - rewrite !filter_cons_True by tauto. by rewrite fmap_cons, IH.
Qed.

(** The rows of the merged table: the existing rows whose index value is
    not among the incoming ones, then the incoming rows; of equal index
    values on one side the last row stands. *)
Lemma merge_rows A1 B1 C :
  concat A1 B1 = Return C →
  rows (drop_index_duplicates C)
  = cast A1 B1
      <$> (laid A1 B1 A1
             <$> filter (λ r : Row, r.1 ∉ index B1) (keep_last fst (rows A1)))
          ++ (laid A1 B1 B1 <$> keep_last fst (rows B1)).
Proof.
  intros Hc. apply concat_Return in Hc as (_ & _ & Hr & _).
  rewrite rows_drop_index_duplicates, Hr, keep_last_fmap.
  rewrite (keep_last_ext (fst ∘ cast A1 B1) fst) by done.
  f_equal. unfold laid_rows. rewrite keep_last_app.
  rewrite !keep_last_fmap.
  rewrite (keep_last_ext (fst ∘ laid A1 B1 A1) fst (rows A1)) by done.
  rewrite (keep_last_ext (fst ∘ laid A1 B1 B1) fst (rows B1)) by done.
  rewrite <- list_fmap_compose.
  rewrite (list_fmap_ext (fst ∘ laid A1 B1 B1) fst) by done.
  unfold index.
  by rewrite (filter_fmap_key fst (fst <$> rows B1) (laid A1 B1 A1)).
Qed.

Lemma merge_index A1 B1 C :
  concat A1 B1 = Return C →
  index (drop_index_duplicates C)
  = filter (λ t, t ∉ index B1) (keep_last id (index A1))
    ++ keep_last id (index B1).
Proof.
  intros Hc. unfold index at 1. rewrite (merge_rows _ _ _ Hc).
  rewrite <- list_fmap_compose, fmap_app, <- !list_fmap_compose.
  rewrite !(list_fmap_ext (fst ∘ cast _ _ ∘ laid _ _ _) fst) by done.
  by rewrite index_filter, !index_keep_last.
Qed.

Lemma keep_last_id_elem_of `{EqDecision K} (l : list K) k :
  k ∈ keep_last id l ↔ k ∈ l.
Proof.
  pose proof (keep_last_keys id l k) as H. by rewrite !list_fmap_id in H.
Qed.

(** ** Ascending indexes *)

Lemma ascending_filter (P : Z → Prop) `{∀ t, Decision (P t)} (l : list Z) :
  ascending l → ascending (filter P l).
Proof.
  unfold ascending. induction 1 as [|t l Hl IH Ht]; [constructor|].
  destruct (decide (P t)).
  - rewrite filter_cons_True by done. constructor; [done|].
    apply Forall_forall. intros u Hu%list_elem_of_filter.
    rewrite Forall_forall in Ht. apply Ht, Hu.
  - by rewrite filter_cons_False.
Qed.

Lemma ascending_NoDup (l : list Z) : ascending l → NoDup l.
Proof.
  unfold ascending. induction 1 as [|t l Hl IH Ht]; constructor; [|done].
  intros Hin. rewrite Forall_forall in Ht. specialize (Ht t Hin). lia.
Qed.

Lemma reconcile_Return loc A B R :
  reconcile loc A B = Return R →
  ∃ A1 B1 C, align_timezones loc A (clean B) = Return (A1, B1)
             ∧ concat A1 B1 = Return C ∧ R = drop_index_duplicates C.
Proof. apply merge_Return. Qed.

(** Reconciliation returns a table whenever the existing table repeats no
    column name and the zone database knows every wall time it is asked. *)
Lemma reconcile_total loc A B :
  NoDup (columns A) → (∀ tz t, is_Some (loc tz t)) →
  ∃ R, reconcile loc A B = Return R.
Proof.
  intros HA Hloc. unfold reconcile, merge.
  assert (∃ A1 B1, align_timezones loc A (clean B) = Return (A1, B1))
    as (A1 & B1 & Ha).
  { unfold align_timezones. destruct (negb (empty A)); [|by eexists _, _].
    destruct (index_tz A) as [tz|] eqn:HtA,
             (index_tz (clean B)) as [tz'|] eqn:HtB; try by eexists _, _.
    - destruct (tz_localize_total loc tz (clean B)) as [n' ->]; [done|auto|].
      by eexists _, _.
    - destruct (tz_localize_total loc tz' A) as [e' ->]; [done|auto|].
      by eexists _, _. }
  rewrite Ha. cbn.
  pose proof (align_timezones_Return _ _ _ _ _ Ha) as (HcA & HcB & _).
  destruct (concat_total A1 B1) as [C ->];
    [by rewrite HcA | rewrite HcB; apply clean_columns_NoDup |].
  by eexists.
Qed.

(* ===================================================================== *)
(** * Properties of reconciliation *)
(* ===================================================================== *)

(** C2, as amended. Last write wins: a timestamp that occurs on both sides
    of the merge (after the incoming table is cleaned and the zones are
    aligned) occurs once in the merged table, and every field of the
    incoming table has there the value the incoming table gives it: as it
    is or, when it is an int64 and the merged column is float64, converted
    to float64. A column that holds int64 on both sides keeps its
    integers. *)
Theorem reconcile_last_write_wins loc A B R A1 B1 t :
  reconcile loc A B = Return R →
  align_timezones loc A (clean B) = Return (A1, B1) →
  rectangular B →
  t ∈ index A1 → t ∈ index B1 →
  t ∈ index R ∧ NoDup (index R)
  ∧ ∀ c, c ∈ columns B1 →
      ∃ v, field_at B1 t c = Some v
           ∧ (field_at R t c = Some v
              ∨ ∃ n, v = Int64 n
                     ∧ field_at R t c = Some (Num (float64_of_int n)))
           ∧ (int64_under A1 c → int64_under B1 c → field_at R t c = Some v).
Proof.
  intros HR Ha Hrect HtA HtB.
  apply reconcile_Return in HR as (A1' & B1' & C & Ha' & Hc & ->).
  rewrite Ha in Ha'. injection Ha' as <- <-.
  pose proof (align_timezones_Return _ _ _ _ _ Ha) as (_ & _ & _ & _ & HrB).
  specialize (HrB (clean_rectangular _ Hrect)).
  split; [|split; [apply drop_index_duplicates_NoDup|]].
  { rewrite (merge_index _ _ _ Hc), elem_of_app. right.
    by apply keep_last_id_elem_of. }
  intros c Hcol. unfold field_at.
  rewrite (merge_rows _ _ _ Hc). unfold cast. rewrite row_at_fmap.
  rewrite row_at_app_r.
  2:{ rewrite <- list_fmap_compose.
      rewrite (list_fmap_ext (fst ∘ laid A1 B1 B1) fst) by done.
      by apply keep_last_keys. }
  unfold laid. rewrite row_at_fmap, row_at_keep_last.
  destruct (proj2 (row_at_is_Some (rows B1) t) HtB) as [cells Hcells].
  rewrite Hcells. cbn.
  assert (length cells = length (columns B1)) as Hlen.
  { apply row_at_elem_of in Hcells. unfold rectangular in HrB.
    rewrite Forall_forall in HrB. apply (HrB _ Hcells). }
  destruct (cell_of_is_Some _ _ _ Hcol Hlen) as [v Hv].
  exists v. split; [done|].
  assert (cell_of (columns C) (laid_cells A1 B1 B1 cells) c = Some v) as Hlaid.
  { apply concat_Return in Hc as (_ & -> & _ & _).
    unfold laid_cells, concat_columns.
    destruct (bool_decide_reflect (columns A1 = columns B1)) as [->|Hne];
      [done|].
    unfold relay. rewrite cell_of_fmap, Hv; [done|].
    rewrite elem_of_app. destruct (decide (c ∈ columns A1)); [by left|right].
    unfold new_columns. by apply list_elem_of_filter. }
  split.
  - destruct (cell_of_cast_cells A1 B1 (columns C)
                (laid_cells A1 B1 B1 cells) c) as [-> | ->];
      rewrite Hlaid; [by left|]. cbn.
    destruct (astype_float64_cases v) as [-> | (n & -> & ->)]; [by left|].
    right. by exists n.
  - intros HiA HiB. rewrite <- Hlaid.
    apply concat_Return in Hc as (_ & -> & _). by apply cell_of_cast_int64.
Qed.

(** An incoming Volume that float64 cannot hold: the archive has no Volume
    column, so the merged column gets NaN in the rows of the archive and is
    float64, and the merged table has another number than the incoming
    table under the timestamp they share. *)
Lemma reconcile_last_write_wins_counterexample :
  let A := frame None [bar 1 100; bar 5 100] in
  let B := mkDF None ["Close"; "Volume"]
                [(5, [Num 105; Int64 9007199254740993])] in
  let R := mkDF None ["Close"; "Volume"]
                [(1, [Num 100; NaN]);
                 (5, [Num 105; Num (float64_of_int 9007199254740992)])] in
  reconcile fixed_offset_zones A B = Return R
  ∧ align_timezones fixed_offset_zones A (clean B) = Return (A, B)
  ∧ rectangular B ∧ 5 ∈ index A ∧ 5 ∈ index B
  ∧ field_at B 5 "Volume" = Some (Int64 9007199254740993)
  ∧ field_at R 5 "Volume" = Some (Num (float64_of_int 9007199254740992))
  ∧ field_at R 5 "Volume" ≠ field_at B 5 "Volume".
Proof.
  cbn zeta. split; [by vm_compute|]. split; [by vm_compute|].
  split; [repeat constructor|].
  split; [vm_compute; right; left|]. split; [vm_compute; left|].
  split; [by vm_compute|]. split; [by vm_compute|]. by vm_compute.
Qed.

(** C3, as amended. A merged table repeats no timestamp, and its order is
    that of the concatenation, which is not sorted afterwards: the existing
    timestamps that do not occur among the incoming ones, in their order,
    then the incoming ones, in theirs. It is ascending when both sides are
    and every existing timestamp that is kept precedes all incoming ones. *)
Theorem reconcile_index_order loc A B R :
  reconcile loc A B = Return R →
  ∃ A1 B1,
    align_timezones loc A (clean B) = Return (A1, B1)
    ∧ NoDup (index R)
    ∧ index R = filter (λ t, t ∉ index B1) (keep_last id (index A1))
                ++ keep_last id (index B1)
    ∧ (ascending (index A1) → ascending (index B1) →
       (∀ a b, a ∈ index A1 → a ∉ index B1 → b ∈ index B1 → a < b) →
       ascending (index R)).
Proof.
  intros HR. apply reconcile_Return in HR as (A1 & B1 & C & Ha & Hc & ->).
  exists A1, B1. split; [done|]. split; [apply drop_index_duplicates_NoDup|].
  split; [by apply merge_index|].
  intros HsA HsB Hlt. rewrite (merge_index _ _ _ Hc).
  rewrite !keep_last_id by (rewrite list_fmap_id; by apply ascending_NoDup).
  apply StronglySorted_app. split; [|split; [by apply ascending_filter|done]].
  intros a b Ha' Hb. apply list_elem_of_filter in Ha' as [? ?]. by apply Hlt.
Qed.

(** Both sides of the sample merge below are ascending, the result is not. *)
Lemma reconcile_index_order_counterexample :
  let A := frame None [bar 1 100; bar 5 100] in
  let B := frame None [bar 3 105] in
  ∃ R, reconcile fixed_offset_zones A B = Return R
       ∧ ascending (index A) ∧ ascending (index B)
       ∧ NoDup (index R) ∧ ¬ ascending (index R).
Proof.
  cbn zeta. eexists. split; [reflexivity|]. vm_compute index.
  split; [repeat constructor; lia|]. split; [repeat constructor|].
  split.
  - apply (bool_decide_unpack _). by vm_compute.
  - unfold ascending. intros H.
    apply StronglySorted_inv in H as [H _].
    apply StronglySorted_inv in H as [_ H].
    apply Forall_cons in H as [H _]. lia.
Qed.

Lemma reconcile_index_order_witness :
  let A := frame None [bar 1 100; bar 5 100] in
  let B := frame None [bar 5 105; bar 6 106] in
  let R := frame None [bar 1 100; bar 5 105; bar 6 106] in
  ∃ A1 B1,
    align_timezones fixed_offset_zones A (clean B) = Return (A1, B1)
    ∧ NoDup (index R)
    ∧ index R = filter (λ t, t ∉ index B1) (keep_last id (index A1))
                ++ keep_last id (index B1)
    ∧ (ascending (index A1) → ascending (index B1) →
       (∀ a b, a ∈ index A1 → a ∉ index B1 → b ∈ index B1 → a < b) →
       ascending (index R)).
Proof.
  cbn zeta.
  apply (reconcile_index_order fixed_offset_zones
           (frame None [bar 1 100; bar 5 100])
           (frame None [bar 5 105; bar 6 106])).
  reflexivity.
Defined.

Lemma reconcile_last_write_wins_witness :
  let A := mkDF None ["Close"; "Volume"]
                [(1, [Num 100; Int64 8]); (5, [Num 100; Int64 8])] in
  let B := mkDF None ["Close"; "Volume"]
                [(5, [Num 105; Int64 9]); (6, [Num 106; Int64 7])] in
  let R := mkDF None ["Close"; "Volume"]
                [(1, [Num 100; Int64 8]); (5, [Num 105; Int64 9]);
                 (6, [Num 106; Int64 7])] in
  5 ∈ index R ∧ NoDup (index R)
  ∧ ∀ c, c ∈ columns B →
      ∃ v, field_at B 5 c = Some v
           ∧ (field_at R 5 c = Some v
              ∨ ∃ n, v = Int64 n
                     ∧ field_at R 5 c = Some (Num (float64_of_int n)))
           ∧ (int64_under A c → int64_under B c → field_at R 5 c = Some v).
Proof.
  cbn zeta.
  apply (reconcile_last_write_wins fixed_offset_zones
           (mkDF None ["Close"; "Volume"]
                 [(1, [Num 100; Int64 8]); (5, [Num 100; Int64 8])])
           (mkDF None ["Close"; "Volume"]
                 [(5, [Num 105; Int64 9]); (6, [Num 106; Int64 7])])
           (mkDF None ["Close"; "Volume"]
                 [(1, [Num 100; Int64 8]); (5, [Num 105; Int64 9]);
                  (6, [Num 106; Int64 7])])
           (mkDF None ["Close"; "Volume"]
                 [(1, [Num 100; Int64 8]); (5, [Num 100; Int64 8])])
           (mkDF None ["Close"; "Volume"]
                 [(5, [Num 105; Int64 9]); (6, [Num 106; Int64 7])]) 5).
  - by vm_compute.
  - reflexivity.
  - repeat constructor.
  - vm_compute. right. left.
  - vm_compute. left.
Defined.

(** ** Zone alignment *)

Lemma tz_localize_Raise loc tz df e :
  index_tz df = None → tz_localize loc tz df = Raise e →
  ∃ t, t ∈ index df ∧ loc tz t = None.
Proof.
  unfold tz_localize, index. intros ->.
  induction (rows df) as [|r rs IH]; [done|]. cbn [exc_mapM].
  destruct (loc tz r.1) as [v|] eqn:Hr; cbn.
  - destruct (exc_mapM _ rs) as [rs'|e'] eqn:Hrs; cbn in *; [done|].
    intros He. destruct (IH He) as (t & Ht & Hl).
    exists t. split; [|done]. by right.
  - intros _. exists r.1. split; [|done]. left.
Qed.

(** The alignment step, the existing table having rows and columns as it
    always has there. When exactly one side is naive, that side and no
    other is localized to the zone of the aware side: its rows keep their
    cells and each wall time becomes the instant the zone gives it (and if
    the zone has none for some wall time, the step raises). When both sides
    are aware, or both naive, both tables pass unchanged. *)
Lemma align_timezones_policy loc e n :
  empty e = false →
  (∀ tz, index_tz e = None → index_tz n = Some tz →
     match align_timezones loc e n with
     | Return (e', n') =>
         n' = n ∧ index_tz e' = Some tz ∧ columns e' = columns e
         ∧ Forall2 (λ r r' : Row, loc tz r.1 = Some r'.1 ∧ r'.2 = r.2)
                   (rows e) (rows e')
     | Raise _ => ∃ t, t ∈ index e ∧ loc tz t = None
     end)
  ∧ (∀ tz, index_tz e = Some tz → index_tz n = None →
     match align_timezones loc e n with
     | Return (e', n') =>
         e' = e ∧ index_tz n' = Some tz ∧ columns n' = columns n
         ∧ Forall2 (λ r r' : Row, loc tz r.1 = Some r'.1 ∧ r'.2 = r.2)
                   (rows n) (rows n')
     | Raise _ => ∃ t, t ∈ index n ∧ loc tz t = None
     end)
  ∧ (is_Some (index_tz e) → is_Some (index_tz n) →
     align_timezones loc e n = Return (e, n))
  ∧ (index_tz e = None → index_tz n = None →
     align_timezones loc e n = Return (e, n)).
Proof.
  intros He. unfold align_timezones. rewrite He. cbn [negb].
  repeat split.
  - intros tz Hte Htn. rewrite Hte, Htn.
    destruct (tz_localize loc tz e) as [e'|x] eqn:Hl; cbn.
    + apply tz_localize_Return in Hl as (_ & ? & ? & ?). done.
    + by apply tz_localize_Raise in Hl.
  - intros tz Hte Htn. rewrite Hte, Htn.
    destruct (tz_localize loc tz n) as [n'|x] eqn:Hl; cbn.
    + apply tz_localize_Return in Hl as (_ & ? & ? & ?). done.
    + by apply tz_localize_Raise in Hl.
  - by intros [? ->] [? ->].
  - by intros -> ->.
Qed.

(** The index of a localized table: the instants of the wall times. *)
Lemma localized_index (loc : TZ → Z → option Z) (tz : TZ)
    (rs rs' : list Row) :
  Forall2 (λ r r' : Row, loc tz r.1 = Some r'.1 ∧ r'.2 = r.2) rs rs' →
  ∀ t, t ∈ fst <$> rs' ↔ ∃ w, w ∈ fst <$> rs ∧ loc tz w = Some t.
Proof.
  induction 1 as [|r r' rs rs' [Hr _] _ IH]; intros t.
  - rewrite fmap_nil, elem_of_nil. split; [done|].
    by intros (w & ?%elem_of_nil & _).
  - rewrite !fmap_cons, elem_of_cons, IH. split.
    + intros [->|(w & Hw & Hl)].
      * exists r.1. split; [left|done].
      * exists w. split; [by right|done].
    + intros (w & [->|Hw]%elem_of_cons & Hl).
      * left. congruence.
      * right. eauto.
Qed.

Lemma clean_index_elem_of df t : t ∈ index (clean df) ↔ t ∈ index df.
Proof. rewrite clean_index. apply keep_last_id_elem_of. Qed.

Lemma merge_index_elem_of A1 B1 C t :
  concat A1 B1 = Return C →
  t ∈ index (drop_index_duplicates C) ↔ t ∈ index A1 ∨ t ∈ index B1.
Proof.
  intros Hc.
  rewrite (merge_index _ _ _ Hc), elem_of_app, list_elem_of_filter.
  rewrite !keep_last_id_elem_of.
  destruct (decide (t ∈ index B1)); tauto.
Qed.

(** C5. Zone alignment in a reconciliation, the existing table having rows
    and columns, and no repeated column name, as the loaded archive has.
    When the existing table is naive and the incoming one aware, the merged
    table is in the zone of the incoming one and holds the instants that
    zone gives the existing wall times, with the incoming timestamps as
    they came; when the existing table is aware and the incoming one naive,
    it is the other way round; the aware side is never touched. When both
    sides are aware, or both naive, the merged table holds the timestamps
    of both sides as they came, in their zone when they have the same.
    Reconciling a naive table is reconciling the localized table. The
    reconciliation raises only when the zone has no instant for a wall
    time of the naive side. *)
Theorem reconcile_timezone_policy loc A B :
  empty A = false → NoDup (columns A) →
  match reconcile loc A B with
  | Return R =>
      (∀ tz, index_tz A = None → index_tz B = Some tz →
         index_tz R = Some tz
         ∧ ∀ t, t ∈ index R
                ↔ (∃ w, w ∈ index A ∧ loc tz w = Some t) ∨ t ∈ index B)
      ∧ (∀ tz, index_tz A = Some tz → index_tz B = None →
         index_tz R = Some tz
         ∧ ∀ t, t ∈ index R
                ↔ t ∈ index A ∨ ∃ w, w ∈ index B ∧ loc tz w = Some t)
      ∧ ((is_Some (index_tz A) ↔ is_Some (index_tz B)) →
         (index_tz A = index_tz B → index_tz R = index_tz A)
         ∧ ∀ t, t ∈ index R ↔ t ∈ index A ∨ t ∈ index B)
  | Raise _ =>
      (∃ tz w, index_tz A = None ∧ index_tz B = Some tz
               ∧ w ∈ index A ∧ loc tz w = None)
      ∨ (∃ tz w, index_tz A = Some tz ∧ index_tz B = None
                 ∧ w ∈ index B ∧ loc tz w = None)
  end
  ∧ (∀ tz, index_tz A = None → index_tz B = Some tz →
       reconcile loc A B
       = exc_bind (tz_localize loc tz A) (λ A', reconcile loc A' B))
  ∧ (∀ tz, index_tz A = Some tz → index_tz B = None →
       reconcile loc A B
       = exc_bind (tz_localize loc tz (clean B)) (λ B', merge loc A B')).
Proof.
  intros HA Hnd.
  destruct (align_timezones_policy loc A (clean B) HA)
    as (Hna & Han & Haa & Hnn).
  rewrite clean_index_tz in Hna, Han, Haa, Hnn.
  split; [|split].
  - destruct (reconcile loc A B) as [R|x] eqn:HR.
    + apply reconcile_Return in HR as (A1 & B1 & C & Ha & Hc & ->).
      pose proof (align_timezones_Return _ _ _ _ _ Ha) as (_ & _ & HeA & _).
      pose proof (concat_Return _ _ _ Hc) as (HtzC & _).
      assert (index_tz (drop_index_duplicates C) = index_tz A1) as HtzR.
      { cbn. rewrite HtzC. rewrite HA in HeA. unfold empty in HeA.
        by destruct (rows A1). }
      rewrite HtzR. split; [|split].
      * intros tz Hte Htn. specialize (Hna tz Hte Htn). rewrite Ha in Hna.
        destruct Hna as (-> & Htz & _ & Hrows). split; [done|].
        intros t. rewrite (merge_index_elem_of _ _ _ t Hc).
        unfold index at 1. rewrite (localized_index _ _ _ _ Hrows).
        by rewrite clean_index_elem_of.
      * intros tz Hte Htn. specialize (Han tz Hte Htn). rewrite Ha in Han.
        destruct Han as (-> & _ & _ & Hrows). split; [done|].
        intros t. rewrite (merge_index_elem_of _ _ _ t Hc).
        unfold index at 2. rewrite (localized_index _ _ _ _ Hrows).
        fold (index (clean B)).
        by setoid_rewrite clean_index_elem_of.
      * intros Hboth.
        assert (align_timezones loc A (clean B) = Return (A, clean B)) as Hal.
        { destruct (index_tz A) eqn:HtA, (index_tz B) eqn:HtB.
          - apply Haa; eauto.
          - destruct (proj1 Hboth) as [? ?]; [eauto|done].
          - destruct (proj2 Hboth) as [? ?]; [eauto|done].
          - by apply Hnn. }
        rewrite Ha in Hal. injection Hal as -> ->. split; [done|].
        intros t. rewrite (merge_index_elem_of _ _ _ t Hc).
        by rewrite clean_index_elem_of.
    + unfold reconcile, merge in HR.
      destruct (align_timezones loc A (clean B)) as [[A1 B1]|y] eqn:Ha.
      * pose proof (align_timezones_Return _ _ _ _ _ Ha) as (HcA & HcB & _).
        destruct (concat_total A1 B1) as [C HC];
          [by rewrite HcA|rewrite HcB; apply clean_columns_NoDup|].
        cbn in HR. by rewrite HC in HR.
      * destruct (index_tz A) as [tz|] eqn:HtA,
                 (index_tz B) as [tz'|] eqn:HtB.
        -- by specialize (Haa (mk_is_Some _ _ eq_refl) (mk_is_Some _ _ eq_refl)).
        -- right. destruct (Han tz eq_refl eq_refl) as (w & Hw & Hl).
           rewrite clean_index_elem_of in Hw. exists tz, w. by repeat split.
        -- left. destruct (Hna tz' eq_refl eq_refl) as (w & Hw & Hl).
           exists tz', w. by repeat split.
        -- by specialize (Hnn eq_refl eq_refl).
  - intros tz Hte Htn. unfold reconcile, merge at 1, align_timezones at 1.
    rewrite HA, Hte, clean_index_tz, Htn. cbn [negb].
    destruct (tz_localize loc tz A) as [A'|x] eqn:Hl; [|done].
    cbn [exc_bind]. unfold merge, align_timezones.
    apply tz_localize_Return in Hl as (_ & -> & _).
    rewrite clean_index_tz, Htn. by destruct (negb (empty A')).
  - intros tz Hte Htn. unfold reconcile, merge at 1, align_timezones at 1.
    rewrite HA, Hte, clean_index_tz, Htn. cbn [negb].
    destruct (tz_localize loc tz (clean B)) as [B'|x] eqn:Hl; [|done].
    cbn [exc_bind]. unfold merge, align_timezones.
    apply tz_localize_Return in Hl as (_ & -> & _).
    by rewrite HA, Hte.
Qed.

(** A naive archive merged with a response in the zone of Kolkata: the
    wall time 0 of the archive becomes the instant five and a half hours
    before, and the timestamp of the response stays. *)
Lemma reconcile_timezone_policy_witness :
  let A := frame None [bar 0 100] in
  let B := frame (Some kolkata) [bar 5 105] in
  ∃ R, reconcile fixed_offset_zones A B = Return R
       ∧ index_tz R = Some kolkata
       ∧ index R = [-19800000000000; 5]
       ∧ ∀ t, t ∈ index R
              ↔ (∃ w, w ∈ index A ∧ fixed_offset_zones kolkata w = Some t)
                ∨ t ∈ index B.
Proof.
  cbn zeta.
  pose proof (reconcile_timezone_policy fixed_offset_zones
                (frame None [bar 0 100])
                (frame (Some kolkata) [bar 5 105]) eq_refl) as [H _].
  { repeat constructor. by intros ?%elem_of_nil. }
  destruct (reconcile fixed_offset_zones (frame None [bar 0 100])
              (frame (Some kolkata) [bar 5 105])) as [R|x] eqn:HR;
    [|by vm_compute in HR].
  exists R. split; [done|].
  destruct H as (H & _). destruct (H kolkata eq_refl eq_refl) as [Hz Hmem].
  split; [done|]. split; [|done].
  vm_compute in HR. by injection HR as <-.
Defined.

(** ** Merging twice *)

Lemma DataFrame_eq (a b : DataFrame) :
  index_tz a = index_tz b → columns a = columns b → rows a = rows b → a = b.
Proof. destruct a, b. cbn. by intros -> -> ->. Qed.





(* ===================================================================== *)
(** * Facts about one task *)
(* ===================================================================== *)

(** Whatever the provider and the disk do, the task of one interval ends
    normally; it sends at most one request and starts at most one write,
    which goes to the archive path itself; a write that fails is reported
    on the console. *)
Lemma sync_interval_effects env sym itv mp csv s :
  ∃ s', sync_interval env sym itv mp csv s = (s', Return tt)
    ∧ dirs s' = dirs s
    ∧ (requests s' = requests s
       ∨ ∃ req, requests s' = requests s ++ [req]
                ∧ req_symbol req = sym ∧ req_interval req = itv)
    ∧ ((writes s' = writes s ∧ files s' = files s)
       ∨ ∃ df, writes s' = writes s ++ [(csv, df)]
               ∧ files s' = after_write (disk env csv) csv df (files s)
               ∧ ∀ e, write_error (disk env csv) = Some e →
                      ∃ m, last (stdout s') = Some m ∧ reports sym itv e m).
Proof.
  io_unfold. unfold after_write, first_rows, reports.
  repeat (case_match; simplify_eq/=);
    eexists; (split; [reflexivity|]); cbn;
    (split; [reflexivity|]);
    (split; [first [by left | right; eexists; by repeat split]|]);
    first [ by left
          | right; eexists; split; [reflexivity|]; split; [reflexivity|];
            intros e' [= <-]; rewrite ?last_snoc; eauto 6
          | right; eexists; split; [reflexivity|]; split; [reflexivity|];
            by intros e' ].
Qed.

(** A task changes no path but its own. *)
Lemma after_write_other d csv df fs p :
  p ≠ csv → after_write d csv df fs !! p = fs !! p.
Proof.
  intros Hp. unfold after_write.
  destruct d; [|done|]; by rewrite lookup_insert_ne.
Qed.

(* ===================================================================== *)
(** * Properties of a task *)
(* ===================================================================== *)

(** C6. When the provider raises on the request of a task, the task ends
    normally with the files as they were, no write started and the failure
    printed, and the loop goes on with the next interval from there. *)
Theorem provider_failure_is_isolated env sym (path_of : string → string)
    itv mp rest s e :
  (∀ req, req_symbol req = sym → req_interval req = itv →
          provider env req = Raise e) →
  ∃ s',
    sync_interval env sym itv mp (path_of itv) s = (s', Return tt)
    ∧ files s' = files s ∧ dirs s' = dirs s ∧ writes s' = writes s
    ∧ (requests s' = requests s
       ∨ (∃ req, requests s' = requests s ++ [req])
         ∧ last (stdout s') = Some (FailedToFetch sym itv e))
    ∧ for_each ((itv, mp) :: rest)
        (λ '(i, p), sync_interval env sym i p (path_of i)) s
      = for_each rest
          (λ '(i, p), sync_interval env sym i p (path_of i)) s'.
Proof.
  intros Hprov.
  assert (∃ s', sync_interval env sym itv mp (path_of itv) s = (s', Return tt)
    ∧ files s' = files s ∧ dirs s' = dirs s ∧ writes s' = writes s
    ∧ (requests s' = requests s
       ∨ (∃ req, requests s' = requests s ++ [req])
         ∧ last (stdout s') = Some (FailedToFetch sym itv e)))
    as (s' & Hrun & Hrest).
  { io_unfold.
    repeat (case_match; simplify_eq/=);
      try match goal with
          | H : provider _ _ = Return _ |- _ =>
              rewrite Hprov in H by done; discriminate
          end;
      try match goal with
          | H : provider _ _ = Raise _ |- _ =>
              rewrite Hprov in H by done; injection H as <-
          end;
      eexists; (split; [reflexivity|]); cbn; repeat split;
      first [by left | right; rewrite ?last_snoc; eauto]. }
  exists s'. split; [done|]. repeat (split; [tauto|]).
  cbn [for_each]. unfold bind at 1. by rewrite Hrun.
Qed.

(** C7, as amended. A save is one direct write to the archive path: a task
    changes no other path (there is no staging file and no rename), and
    after a write of a table was started the path holds that table when the
    write succeeded, what it held before when the path could not be opened,
    and the rows written so far when the write failed partway. *)
Theorem save_is_direct_write env sym itv mp csv s :
  let s' := (sync_interval env sym itv mp csv s).1 in
  (∀ p, p ≠ csv → files s' !! p = files s !! p)
  ∧ ((writes s' = writes s ∧ files s' = files s)
     ∨ ∃ df, writes s' = writes s ++ [(csv, df)]
             ∧ files s' !! csv
               = match disk env csv with
                 | DiskOk => Some (Table df)
                 | OpenDenied => files s !! csv
                 | FailsAfter n => Some (Table (first_rows n df))
                 end).
Proof.
  destruct (sync_interval_effects env sym itv mp csv s)
    as (s' & -> & _ & _ & [[Hw Hf]|(df & Hw & Hf & _)]); cbn.
  - rewrite Hf. split; [done|]. by left.
  - rewrite Hf. split; [intros p Hp; by apply after_write_other|].
    right. exists df. split; [done|]. unfold after_write.
    destruct (disk env csv); by rewrite ?lookup_insert_eq.
Qed.

(** C8, as amended. A write that fails does not leave the task: the task
    ends normally, and the last thing it printed reports the error. *)
Theorem write_failure_stays_in_task env sym itv mp csv s e :
  write_error (disk env csv) = Some e →
  writes (sync_interval env sym itv mp csv s).1 ≠ writes s →
  (sync_interval env sym itv mp csv s).2 = Return tt
  ∧ ∃ m, last (stdout (sync_interval env sym itv mp csv s).1) = Some m
         ∧ reports sym itv e m.
Proof.
  intros He.
  destruct (sync_interval_effects env sym itv mp csv s)
    as (s' & -> & _ & _ & [[Hw Hf]|(df & Hw & Hf & Hm)]); cbn.
  - done.
  - intros _. split; [done|]. by apply Hm.
Qed.

Lemma index_last_is_Some df :
  empty df = false →
  ∃ t, index_last df = Some t ∧ tzinfo t = index_tz df.
Proof.
  unfold empty, index_last, index. intros He.
  destruct (last (fst <$> rows df)) as [t|] eqn:Hl; [by eexists|].
  apply last_None, fmap_nil_inv in Hl. by rewrite Hl in He.
Qed.

Lemma last_keep_last `{EqDecision K} (l : list K) :
  last (keep_last id l) = last l.
Proof.
  induction l as [|x l IH]; [done|]. cbn [keep_last].
  destruct (bool_decide_reflect (id x ∈ id <$> l)) as [Hx|Hx].
  - rewrite IH. destruct l; [|done]. by apply elem_of_nil in Hx.
  - destruct l as [|y l]; [done|].
    destruct (keep_last id (y :: l)) as [|z k] eqn:Hk; [|done].
    by apply keep_last_nil_inv in Hk.
Qed.

(** C4, as amended. For a daily or coarser interval whose archive has rows,
    the start of the request is the timestamp of the last row of the archive
    plus one day, in the zone of the stored timestamps. When that sum is past
    [Timestamp.max] the addition raises: the task prints the failure and
    does nothing else. Otherwise the task sends a request from that start
    exactly when the start is strictly before now in that zone, and when it
    is not changes nothing: no request, no write, nothing printed. *)
Theorem coarse_update_window env sym itv mp csv s df :
  files s !! csv = Some (Table df) →
  empty (clean df) = false →
  itv ∈ coarse_intervals →
  ∃ last_date,
    index_last (clean df) = Some last_date
    ∧ last (index df) = Some (value last_date)
    ∧ tzinfo last_date = index_tz df
    ∧ let start_date := mkTs (index_tz df) (value last_date + one_day) in
      let s' := (sync_interval env sym itv mp csv s).1 in
      if decide (Timestamp_max < value start_date)
      then s' = printed (FailedToFetch sym itv OutOfBoundsDatetime) s
      else if decide (value start_date < value (datetime_now env (index_tz df)))
      then requests s' = requests s ++ [mkReq sym itv (Start start_date)]
      else s' = s.
Proof.
  intros Hfile Hne Hitv.
  destruct (index_last_is_Some _ Hne) as (t & Ht & Htz).
  rewrite clean_index_tz in Htz.
  exists t. split; [done|]. split.
  { unfold index_last in Ht. rewrite clean_index, last_keep_last in Ht.
    destruct (last (index df)); by simplify_eq/=. }
  split; [done|]. cbn zeta.
  assert (bool_decide (itv ∈ coarse_intervals) = true) as Hitv'
    by (by apply bool_decide_eq_true_2).
  assert (bool_decide (is_Some (files s !! csv) ∨ csv ∈ dirs s) = true)
    as Hex by (apply bool_decide_eq_true_2; left; eauto).
  io_unfold. rewrite Hex, Hfile. cbn. rewrite Hne. cbn.
  rewrite Ht, Hitv'. cbn. unfold add_day. rewrite Htz.
  destruct (decide (Timestamp_max < value t + one_day)) as [Hmax|Hmax].
  { destruct (Z.leb_spec (value t + one_day) Timestamp_max); [lia|done]. }
  destruct (Z.leb_spec (value t + one_day) Timestamp_max); [|lia].
  unfold ts_ltb. cbn.
  destruct (decide _) as [Hd|Hd].
  - destruct (Z.ltb_spec (value t + one_day)
                (match index_tz df with
                 | Some _ => now_utc env | None => now_local env end));
      [|lia].
    repeat (case_match; simplify_eq/=); done.
  - destruct (Z.ltb_spec (value t + one_day)
                (match index_tz df with
                 | Some _ => now_utc env | None => now_local env end));
      [lia|done].
Qed.


(** C1, at the input where the script breaks it. The first fetch of an
    archive (no file yet) writes the response as it came, without the
    cleaning that the fetch over an empty file applies: two rows with one
    timestamp both reach the file. *)
Lemma first_fetch_keeps_duplicate_timestamps :
  let data := frame None [bar 1 100; bar 1 101] in
  let env := demo_env (λ _, Return data) 0 DiskOk in
  let s' := (sync_interval env "X.NS" "1d" "max" daily_csv blank_state).1 in
  files blank_state !! daily_csv = None
  ∧ files s' !! daily_csv = Some (Table data)
  ∧ ¬ NoDup (index data).
Proof.
  cbn zeta. split; [done|]. split; [by vm_compute|].
  vm_compute. intros H. apply NoDup_cons in H as [H _]. apply H. left.
Qed.

(** The last row of the archive is one day before now: the start of the
    request is now itself, so it is not in the future, and the task sends
    nothing. *)
Lemma coarse_update_window_counterexample :
  let env := demo_env (λ _, Return (frame None [bar one_day 101]))
                      one_day DiskOk in
  let df := frame None [bar (- one_day) 99; bar 0 100] in
  let s := state_with daily_csv (Table df) in
  let s' := (sync_interval env "X.NS" "1d" "max" daily_csv s).1 in
  index_last (clean df) = Some (mkTs None 0)
  ∧ add_day (mkTs None 0) = Return (mkTs None one_day)
  ∧ ¬ (value (datetime_now env None) < one_day)
  ∧ requests s' = [] ∧ writes s' = [] ∧ s' = s.
Proof.
  cbn zeta. split; [done|]. split; [done|]. split; [by vm_compute|].
  by vm_compute.
Qed.

(** An archive whose last row is at [Timestamp.max]: the addition of a day
    raises, and the task prints the failure and sends nothing. *)
Lemma coarse_update_past_Timestamp_max :
  let env := demo_env (λ _, Return (frame None [bar 0 100])) 0 DiskOk in
  let s := state_with daily_csv
             (Table (frame None [bar 0 100; bar Timestamp_max 101])) in
  sync_interval env "X.NS" "1d" "max" daily_csv s
  = (printed (FailedToFetch "X.NS" "1d" OutOfBoundsDatetime) s, Return tt).
Proof. by vm_compute. Qed.

(** An archive of two rows, a day apart, read two days after the last: the
    request starts a day after the last row, not after the first. *)
Lemma coarse_update_window_witness :
  let env := demo_env (λ _, Return (frame None [bar (3 * one_day) 102]))
                      (3 * one_day) DiskOk in
  let df := frame None [bar 0 100; bar one_day 101] in
  let s := state_with daily_csv (Table df) in
  let s' := (sync_interval env "X.NS" "1d" "max" daily_csv s).1 in
  requests s' = [mkReq "X.NS" "1d" (Start (mkTs None (2 * one_day)))].
Proof.
  cbn zeta.
  destruct (coarse_update_window
              (demo_env (λ _, Return (frame None [bar (3 * one_day) 102]))
                        (3 * one_day) DiskOk)
              "X.NS" "1d" "max" daily_csv
              (state_with daily_csv
                 (Table (frame None [bar 0 100; bar one_day 101])))
              (frame None [bar 0 100; bar one_day 101]))
    as (last_date & Hlast & _ & _ & Hrun).
  - by vm_compute.
  - reflexivity.
  - left.
  - injection Hlast as <-. cbn zeta in Hrun.
    destruct (decide _) as [Hmax|_] in Hrun; [by vm_compute in Hmax|].
    destruct (decide _) as [_|Hnow] in Hrun; [exact Hrun|].
    exfalso. apply Hnow. by vm_compute.
Defined.

Lemma provider_failure_is_isolated_witness :
  let e := ProviderError "429 Too Many Requests" in
  let env := demo_env (λ _, Raise e) 0 DiskOk in
  let s := state_with minute_csv (Table (frame None [bar 1 100])) in
  let path_of := csv_file_of "/data/X" "X" in
  ∃ s',
    sync_interval env "X.NS" "1m" "7d" (path_of "1m") s = (s', Return tt)
    ∧ files s' = files s ∧ dirs s' = dirs s ∧ writes s' = writes s
    ∧ (requests s' = requests s
       ∨ (∃ req, requests s' = requests s ++ [req])
         ∧ last (stdout s') = Some (FailedToFetch "X.NS" "1m" e))
    ∧ for_each [("1m", "7d"); ("2m", "60d")]
        (λ '(i, p), sync_interval env "X.NS" i p (path_of i)) s
      = for_each [("2m", "60d")]
          (λ '(i, p), sync_interval env "X.NS" i p (path_of i)) s'.
Proof.
  cbn zeta.
  apply (provider_failure_is_isolated
           (demo_env (λ _, Raise (ProviderError "429 Too Many Requests"))
                     0 DiskOk)
           "X.NS" (csv_file_of "/data/X" "X") "1m" "7d" [("2m", "60d")]).
  intros req _ _. reflexivity.
Defined.

(** The write fails after one row: the archive held two Bars and now holds
    one. *)
Lemma save_is_direct_write_counterexample :
  let old := frame None [bar 1 100; bar 2 100] in
  let env := demo_env (λ _, Return (frame None [bar 3 102])) 0 (FailsAfter 1) in
  let s := state_with minute_csv (Table old) in
  let s' := (sync_interval env "X.NS" "1m" "7d" minute_csv s).1 in
  files s !! minute_csv = Some (Table old)
  ∧ writes s' = [(minute_csv, frame None [bar 1 100; bar 2 100; bar 3 102])]
  ∧ files s' !! minute_csv = Some (Table (frame None [bar 1 100]))
  ∧ files s' !! minute_csv ≠ files s !! minute_csv.
Proof.
  cbn zeta. split; [by vm_compute|]. split; [by vm_compute|].
  split; [by vm_compute|]. vm_compute. discriminate.
Qed.

(** The archive cannot be opened for writing: the task, the worker and the
    loop of [main] all end normally, and no task is reported as failed. *)
Lemma write_failure_stays_in_task_counterexample :
  let data := frame None [bar 1 100] in
  let env := demo_env (λ _, Return data) 0 OpenDenied in
  let r := sync_interval env "X.NS" "1d" "max" daily_csv blank_state in
  let out := stdout (run_tasks env [("X", "X")] blank_state).1 in
  writes r.1 = [(daily_csv, data)]
  ∧ write_error (disk env daily_csv) = Some PermissionError
  ∧ r.2 = Return tt
  ∧ (fetch_worker env ("X", "X") blank_state).2 = Return "X done"
  ∧ (run_tasks env [("X", "X")] blank_state).2 = Return tt
  ∧ forallb (λ m, negb (is_task_failed m)) out = true.
Proof. cbn zeta. by vm_compute. Qed.

Lemma write_failure_stays_in_task_witness :
  let data := frame None [bar 1 100] in
  let env := demo_env (λ _, Return data) 0 OpenDenied in
  let r := sync_interval env "X.NS" "1d" "max" daily_csv blank_state in
  r.2 = Return tt
  ∧ ∃ m, last (stdout r.1) = Some m
         ∧ reports "X.NS" "1d" PermissionError m.
Proof.
  cbn zeta.
  apply (write_failure_stays_in_task
           (demo_env (λ _, Return (frame None [bar 1 100])) 0 OpenDenied)
           "X.NS" "1d" "max" daily_csv blank_state PermissionError).
  - reflexivity.
  - vm_compute. discriminate.
Defined.


(** ** Archives that exist stay free of repeated timestamps *)

Lemma merge_index_NoDup loc A B R : merge loc A B = Return R → NoDup (index R).
Proof.
  intros (? & ? & C & _ & _ & ->)%merge_Return.
  apply drop_index_duplicates_NoDup.
Qed.

Lemma first_rows_index_NoDup n df :
  NoDup (index df) → NoDup (index (first_rows n df)).
Proof.
  unfold index, first_rows. cbn. rewrite fmap_take. intros H.
  eapply sublist_NoDup; [exact H|apply sublist_take].
Qed.

(** Every task on a path that already holds something (the update of a
    daily or coarser archive, the rolling update of an intraday one, the
    fetch over an empty or unreadable file) leaves it free of repeated
    timestamps if it was. *)
Theorem existing_archive_stays_duplicate_free env sym itv mp csv s :
  is_Some (files s !! csv) →
  duplicate_free (files s !! csv) →
  duplicate_free (files (sync_interval env sym itv mp csv s).1 !! csv).
Proof.
  intros Hsome Hfree.
  assert (bool_decide (is_Some (files s !! csv) ∨ csv ∈ dirs s) = true)
    as Hex by (apply bool_decide_eq_true_2; by left).
  io_unfold. rewrite Hex. unfold duplicate_free in *.
  repeat (case_match; simplify_eq/=);
    rewrite ?lookup_insert_eq in *; simplify_eq/=;
    try done;
    try (apply first_rows_index_NoDup);
    eauto using clean_index_NoDup, merge_index_NoDup.
Qed.

Lemma existing_archive_stays_duplicate_free_witness :
  let env := demo_env (λ _, Return (frame None [bar 2 101; bar 2 102]))
                      0 DiskOk in
  let s := state_with minute_csv (Table (frame None [bar 1 100; bar 2 100])) in
  duplicate_free (files (sync_interval env "X.NS" "1m" "7d" minute_csv s).1
                  !! minute_csv).
Proof.
  cbn zeta.
  apply (existing_archive_stays_duplicate_free
           (demo_env (λ _, Return (frame None [bar 2 101; bar 2 102]))
                     0 DiskOk)
           "X.NS" "1m" "7d" minute_csv
           (state_with minute_csv (Table (frame None [bar 1 100; bar 2 100])))).
  - eexists. vm_compute. reflexivity.
  - vm_compute. apply (bool_decide_unpack _). by vm_compute.
Defined.

(* ===================================================================== *)
(** * Names and paths *)
(* ===================================================================== *)

Lemma chars_app (a b : string) : chars (a +:+ b) = chars a ++ chars b.
Proof.
  unfold chars. induction a as [|c a IH]; [done|].
  cbn [String.list_ascii_of_string app]. rewrite <- IH. reflexivity.
Qed.

Lemma chars_inj (a b : string) : chars a = chars b → a = b.
Proof.
  unfold chars. intros H.
  rewrite <- (String.string_of_list_ascii_of_string a), H.
  apply String.string_of_list_ascii_of_string.
Qed.

Lemma Forall_sublist {A} (P : A → Prop) (l1 l2 : list A) :
  l1 `sublist_of` l2 → Forall P l2 → Forall P l1.
Proof.
  induction 1 as [|x l1 l2 _ IH|x l1 l2 _ IH]; intros H; [done| |].
  - apply Forall_cons in H as [? ?]. constructor; auto.
  - apply Forall_cons in H as [? ?]. auto.
Qed.

Lemma filter_Forall_id {A} (P : A → Prop) `{∀ x, Decision (P x)}
    (l : list A) :
  Forall P l → filter P l = l.
Proof.
  induction 1 as [|x l Hx _ IH]; [done|].
  by rewrite filter_cons_True, IH.
Qed.

Lemma lstrip_spec l :
  ∃ pre, l = pre ++ lstrip l ∧ Forall (λ c, is_space c = true) pre.
Proof.
  induction l as [|c l (pre & Hl & Hpre)]; [by exists []|]. cbn [lstrip].
  destruct (is_space c) eqn:Hc.
  - exists (c :: pre). split; [cbn; by rewrite <- Hl|by constructor].
  - by exists [].
Qed.

Lemma lstrip_head l c : head (lstrip l) = Some c → is_space c = false.
Proof.
  induction l as [|c' l IH]; [done|]. cbn [lstrip].
  destruct (is_space c') eqn:Hc; [done|]. cbn. by intros [= <-].
Qed.

Lemma lstrip_id l :
  (∀ c, head l = Some c → is_space c = false) → lstrip l = l.
Proof. destruct l as [|c l]; [done|]. intros H. cbn. by rewrite H. Qed.

Lemma lstrip_last l c : last (lstrip l) = Some c → last l = Some c.
Proof.
  destruct (lstrip_spec l) as (pre & Hl & _). intros H.
  rewrite Hl, last_app. by rewrite H.
Qed.

Lemma strip_spec l :
  ∃ pre post, l = pre ++ strip l ++ post
              ∧ Forall (λ c, is_space c = true) pre
              ∧ Forall (λ c, is_space c = true) post.
Proof.
  unfold strip.
  destruct (lstrip_spec l) as (pre & Hl & Hpre).
  destruct (lstrip_spec (reverse (lstrip l))) as (pre2 & Hr & Hpre2).
  exists pre, (reverse pre2). split; [|split; [done|]].
  - rewrite <- reverse_app, <- Hr, reverse_involutive. done.
  - by apply Forall_reverse.
Qed.

Lemma strip_stripped l : stripped (strip l).
Proof.
  unfold strip, stripped. split; intros c.
  - rewrite head_reverse. intros H%lstrip_last.
    rewrite last_reverse in H. by apply lstrip_head in H.
  - rewrite last_reverse. apply lstrip_head.
Qed.

Lemma strip_id l : stripped l → strip l = l.
Proof.
  intros [Hh Hl]. unfold strip. rewrite (lstrip_id l) by done.
  rewrite lstrip_id; [apply reverse_involutive|].
  intros c. rewrite head_reverse. apply Hl.
Qed.

Lemma sanitize_filename_chars name :
  chars (sanitize_filename name)
  = strip (filter (λ c, c ∉ invalid_chars) (chars name)).
Proof.
  unfold sanitize_filename, chars.
  apply String.list_ascii_of_string_of_list_ascii.
Qed.

Lemma sanitize_filename_spec name :
  chars (sanitize_filename name) `sublist_of` chars name
  ∧ Forall (λ c, c ∉ invalid_chars) (chars (sanitize_filename name))
  ∧ stripped (chars (sanitize_filename name)).
Proof.
  rewrite sanitize_filename_chars.
  set (kept := filter (λ c, c ∉ invalid_chars) (chars name)).
  destruct (strip_spec kept) as (pre & post & Hk & _ & _).
  assert (strip kept `sublist_of` kept) as Hsub.
  { rewrite Hk at 2. apply sublist_inserts_l, sublist_inserts_r. done. }
  split; [|split].
  - etrans; [exact Hsub|]. apply sublist_filter.
  - eapply Forall_sublist; [exact Hsub|].
    apply Forall_forall. by intros c [? ?]%list_elem_of_filter.
  - apply strip_stripped.
Qed.

(** What [sanitize_filename] returns is the name with some characters taken
    out, none added or moved; none of the characters of the pattern is left
    in it, and it has no ASCII white space at either end. *)
Theorem sanitize_filename_result name :
  chars (sanitize_filename name) `sublist_of` chars name
  ∧ Forall (λ c, c ∉ invalid_chars) (chars (sanitize_filename name))
  ∧ stripped (chars (sanitize_filename name)).
Proof. apply sanitize_filename_spec. Qed.

(** An ASCII name without a character of the pattern and without white
    space at either end passes [sanitize_filename] unchanged. *)
Theorem sanitize_filename_clean_name name :
  Forall (λ c, (nat_of_ascii c < 128)%nat) (chars name) →
  Forall (λ c, c ∉ invalid_chars) (chars name) → stripped (chars name) →
  sanitize_filename name = name.
Proof.
  intros _ Hvalid Hstripped. apply chars_inj. rewrite sanitize_filename_chars.
  rewrite filter_Forall_id by done. by apply strip_id.
Qed.

Lemma sanitize_filename_clean_name_witness :
  sanitize_filename "Reliance Industries Ltd." = "Reliance Industries Ltd.".
Proof.
  apply sanitize_filename_clean_name.
  - apply (bool_decide_unpack _). by vm_compute.
  - apply (bool_decide_unpack _). by vm_compute.
  - split; intros c [= <-]; reflexivity.
Defined.

(** [sanitize_filename] is idempotent. *)
Theorem sanitize_filename_idempotent name :
  sanitize_filename (sanitize_filename name) = sanitize_filename name.
Proof.
  destruct (sanitize_filename_spec name) as (_ & Hvalid & Hstripped).
  apply chars_inj. rewrite (sanitize_filename_chars (sanitize_filename name)).
  rewrite filter_Forall_id by done. by apply strip_id.
Qed.

Lemma chars_nil_inv (a : string) : chars a = [] → a = "".
Proof. intros H. by apply chars_inj. Qed.

Lemma join_relative_case (a b : string) :
  match last (chars a) with
  | None => b
  | Some "/"%char => a +:+ b
  | Some _ => a +:+ "/" +:+ b
  end = a +:+ join_separator a +:+ b.
Proof.
  unfold join_separator. destruct (last (chars a)) as [c|] eqn:Hl.
  - destruct c as [[] [] [] [] [] [] [] []]; reflexivity.
  - apply last_None, chars_nil_inv in Hl. by subst a.
Qed.

(** [os.path.join] with a second part that does not start with a slash
    keeps the first part and appends the second. *)
Lemma os_path_join_relative (a b : string) :
  head (chars b) ≠ Some "/"%char →
  os_path_join a b = a +:+ join_separator a +:+ b.
Proof.
  intros Hb. unfold os_path_join. fold (chars b). fold (chars a).
  destruct (chars b) as [|c l]; [apply join_relative_case|].
  destruct c as [[] [] [] [] [] [] [] []];
    first [apply join_relative_case | by destruct Hb].
Qed.

(** With a second part that starts with a slash it returns the second. *)
Lemma os_path_join_absolute (a b : string) :
  head (chars b) = Some "/"%char → os_path_join a b = b.
Proof.
  intros Hb. unfold os_path_join. fold (chars b).
  destruct (chars b) as [|c l]; [done|]. by injection Hb as ->.
Qed.

(** The directory of a company is the working directory followed by the
    cleaned name: a cleaned name holds no slash, so [os.path.join] (on a
    POSIX system) never drops the working directory for it. *)
Theorem company_dir_keeps_cwd (cwd_ name : string) :
  os_path_join cwd_ (sanitize_filename name)
  = cwd_ +:+ join_separator cwd_ +:+ sanitize_filename name.
Proof.
  apply os_path_join_relative. intros Hh.
  destruct (sanitize_filename_spec name) as (_ & Hvalid & _).
  destruct (chars (sanitize_filename name)) as [|c l]; [done|].
  injection Hh as ->. apply Forall_cons in Hvalid as [Hc _].
  apply Hc. apply (bool_decide_unpack _). by vm_compute.
Qed.

Lemma csv_file_of_inj (company_dir ticker_symbol i j : string) :
  csv_file_of company_dir ticker_symbol i
  = csv_file_of company_dir ticker_symbol j → i = j.
Proof.
  unfold csv_file_of.
  set (name k := ticker_symbol +:+ "_" +:+ k +:+ ".csv").
  assert (∀ k, chars (name k)
               = chars ticker_symbol ++ "_"%char :: chars k ++ chars ".csv")
    as Hname.
  { intros k. unfold name. by rewrite !chars_app. }
  assert (name i = name j → i = j) as Hinj.
  { intros H. apply (f_equal chars) in H. rewrite !Hname in H.
    apply app_inv_head in H. injection H as H.
    apply app_inv_tail in H. by apply chars_inj. }
  assert (head (chars (name i)) = head (chars (name j))) as Hhead.
  { rewrite !Hname. by destruct (chars ticker_symbol). }
  change (os_path_join company_dir (name i)
          = os_path_join company_dir (name j) → i = j).
  destruct (decide (head (chars (name i)) = Some "/"%char)) as [Hi|Hi].
  - rewrite (os_path_join_absolute _ (name i)) by done.
    rewrite (os_path_join_absolute _ (name j)) by congruence. done.
  - rewrite (os_path_join_relative _ (name i)) by done.
    rewrite (os_path_join_relative _ (name j)) by congruence.
    intros H. apply (f_equal chars) in H. rewrite !chars_app in H.
    apply Hinj, chars_inj. by do 2 apply app_inv_head in H.
Qed.

(** The archive files of one symbol, one per interval of the table, are
    pairwise distinct paths. *)
Theorem csv_files_distinct (company_dir ticker_symbol : string) :
  NoDup ((λ interval, csv_file_of company_dir ticker_symbol interval)
           <$> INTERVAL_LIMITS.*1).
Proof.
  apply NoDup_fmap_2.
  - intros i j. apply csv_file_of_inj.
  - apply (bool_decide_unpack _). by vm_compute.
Qed.

(* ===================================================================== *)
(** * More about cleaning and reconciliation *)
(* ===================================================================== *)

Lemma cell_of_nil_r cols c : cell_of cols [] c = None.
Proof. by destruct cols. Qed.

Lemma cell_of_None cols cells c : c ∉ cols → cell_of cols cells c = None.
Proof.
  revert cells. induction cols as [|c' cols IH]; intros [|x cells] Hc;
    try done. cbn [cell_of].
  rewrite bool_decide_eq_false_2 by (intros ->; apply Hc; left).
  apply IH. intros ?. apply Hc. by right.
Qed.

Lemma select_nil_r {A} (mask : list bool) : select mask ([] : list A) = [].
Proof. by destruct mask as [|[] ?]. Qed.

(** Dropping the later columns of a repeated name changes no lookup by
    column name, which finds the first. *)
Lemma cell_of_select_first seen cols cells c :
  c ∉ seen →
  cell_of (select (negb <$> duplicated_first_from seen cols) cols)
          (select (negb <$> duplicated_first_from seen cols) cells) c
  = cell_of cols cells c.
Proof.
  revert seen cells. induction cols as [|c' cols IH]; intros seen cells Hc.
  { by destruct cells. }
  destruct cells as [|x cells].
  { by rewrite select_nil_r, !cell_of_nil_r. }
  cbn [duplicated_first_from fmap list_fmap select cell_of].
  change (list_fmap bool bool negb (duplicated_first_from (c' :: seen) cols))
    with (negb <$> duplicated_first_from (c' :: seen) cols).
  destruct (bool_decide_reflect (c' ∈ seen)) as [Hin|Hin]; cbn [negb].
  - rewrite (bool_decide_eq_false_2 (c' = c)) by (by intros ->).
    apply IH. intros [->|?]%elem_of_cons; done.
  - cbn [cell_of].
    destruct (bool_decide_reflect (c' = c)) as [->|Hne]; [done|].
    apply IH. intros [->|?]%elem_of_cons; done.
Qed.

Lemma field_at_drop_index_duplicates df t c :
  field_at (drop_index_duplicates df) t c = field_at df t c.
Proof.
  unfold field_at. rewrite rows_drop_index_duplicates, row_at_keep_last. done.
Qed.

Lemma field_at_drop_column_duplicates df t c :
  field_at (drop_column_duplicates df) t c = field_at df t c.
Proof.
  unfold field_at, drop_column_duplicates. cbn [rows columns].
  rewrite row_at_fmap. destruct (row_at (rows df) t) as [cells|]; [|done].
  cbn. apply (cell_of_select_first []), not_elem_of_nil.
Qed.

(** Cleaning changes no lookup: under every timestamp and column name the
    cleaned table has the field the table had, which is that of the last
    row with the timestamp and the first column with the name. *)
Theorem clean_preserves_fields df t c :
  field_at (clean df) t c = field_at df t c.
Proof.
  unfold clean. cbn zeta.
  destruct (has_duplicates (index df));
    destruct (has_duplicates (columns _));
    by rewrite ?field_at_drop_column_duplicates,
               ?field_at_drop_index_duplicates.
Qed.

Lemma clean_id df : NoDup (index df) → NoDup (columns df) → clean df = df.
Proof.
  intros Hi Hc. unfold clean.
  by rewrite (has_duplicates_NoDup _ Hi), (has_duplicates_NoDup _ Hc).
Qed.

(** Cleaning is idempotent. *)
Theorem clean_idempotent df : clean (clean df) = clean df.
Proof. apply clean_id; [apply clean_index_NoDup|apply clean_columns_NoDup]. Qed.

(** Merging a response into the archive that holds just that response,
    cleaned, gives the archive back: fetching the same rows again changes
    nothing. *)
Theorem reconcile_same_response loc data :
  reconcile loc (clean data) data = Return (clean data).
Proof.
  unfold reconcile, merge.
  assert (align_timezones loc (clean data) (clean data)
          = Return (clean data, clean data)) as ->.
  { unfold align_timezones. destruct (negb _); [|done].
    by destruct (index_tz (clean data)). }
  cbn [exc_bind]. unfold concat. rewrite bool_decide_eq_true_2 by done.
  cbn [exc_bind]. f_equal. apply DataFrame_eq.
  - cbn. by destruct (rows (clean data)).
  - done.
  - rewrite rows_drop_index_duplicates. cbn [rows].
    rewrite (list_fmap_ext (upcast (rows (clean data)) (rows (clean data)))
               id (rows (clean data) ++ rows (clean data))), list_fmap_id.
    2:{ intros i r Hr%list_elem_of_lookup_2. apply upcast_self.
        apply elem_of_app in Hr. tauto. }
    rewrite keep_last_app, keep_last_id by apply clean_index_NoDup.
    rewrite keep_last_filter_in; [done|].
    intros r Hr. apply list_elem_of_fmap. eauto.
Qed.

(** With the existing table cleaned, as it is when loaded, reconciliation
    returns a table whenever the two sides are both aware or both naive:
    then no localization is needed and the columns can be united. *)
Theorem reconcile_returns loc df data :
  (is_Some (index_tz df) ↔ is_Some (index_tz data)) →
  ∃ R, reconcile loc (clean df) data = Return R.
Proof.
  intros Htz. unfold reconcile, merge.
  assert (align_timezones loc (clean df) (clean data)
          = Return (clean df, clean data)) as ->.
  { unfold align_timezones. destruct (negb _); [|done].
    rewrite !clean_index_tz.
    destruct (index_tz df), (index_tz data); try done.
    - destruct (proj1 Htz) as [? ?]; [eauto|done].
    - destruct (proj2 Htz) as [? ?]; [eauto|done]. }
  cbn.
  destruct (concat_total (clean df) (clean data)) as [C ->];
    [apply clean_columns_NoDup..|].
  by eexists.
Qed.

Lemma reconcile_returns_witness :
  ∃ R, reconcile fixed_offset_zones
         (clean (frame (Some kolkata) [bar 1 100]))
         (mkDF (Some "UTC") ["Close"; "Volume"] [(2, [Num 101; Num 5])])
       = Return R.
Proof.
  apply (reconcile_returns fixed_offset_zones
           (frame (Some kolkata) [bar 1 100])
           (mkDF (Some "UTC") ["Close"; "Volume"] [(2, [Num 101; Num 5])])).
  split; intros _; by eexists.
Defined.

Lemma align_timezones_rectangular_l loc e n e' n' :
  align_timezones loc e n = Return (e', n') → rectangular e → rectangular e'.
Proof.
  unfold align_timezones. destruct (negb (empty e)).
  - destruct (index_tz e) as [tz|], (index_tz n) as [tz'|];
      try (by intros [= <- <-]).
    + destruct (tz_localize loc tz n) as [n1|]; cbn; [|done].
      by intros [= <- <-].
    + destruct (tz_localize loc tz' e) as [e1|] eqn:He; cbn; [|done].
      intros [= <- <-]. by apply (tz_localize_rectangular _ _ _ _ He).
  - by intros [= <- <-].
Qed.

Lemma row_at_app_l l1 l2 t :
  t ∉ fst <$> l2 → row_at (l1 ++ l2) t = row_at l1 t.
Proof.
  intros Ht. induction l1 as [|r l1 IH]; cbn [app row_at].
  - destruct (row_at l2 t) eqn:Hr; [|done].
    destruct Ht. apply row_at_is_Some. eauto.
  - by rewrite IH.
Qed.

Lemma row_at_filter (ks : list Z) l t :
  t ∉ ks → row_at (filter (λ r : Row, r.1 ∉ ks) l) t = row_at l t.
Proof.
  intros Ht. induction l as [|r l IH]; [done|].
  destruct (decide (r.1 ∈ ks)) as [Hr|Hr].
  - rewrite filter_cons_False by tauto. cbn [row_at]. rewrite IH.
    destruct (row_at l t); [done|].
    rewrite bool_decide_eq_false_2; [done|]. by intros <-.
  - rewrite filter_cons_True by tauto. cbn [row_at]. by rewrite IH.
Qed.

(** The field of a merged table under a timestamp that only the existing
    side has, and under one the incoming side has. *)
Lemma merge_field_existing A1 B1 C t c :
  concat A1 B1 = Return C → t ∉ index B1 →
  field_at (drop_index_duplicates C) t c
  = cells ← row_at (rows A1) t;
    cell_of (concat_columns A1 B1)
            (cast_cells A1 B1 (laid_cells A1 B1 A1 cells)) c.
Proof.
  intros Hc Ht. unfold field_at. rewrite (merge_rows _ _ _ Hc).
  unfold cast. rewrite row_at_fmap.
  rewrite row_at_app_l.
  2:{ rewrite <- list_fmap_compose.
      rewrite (list_fmap_ext (fst ∘ laid A1 B1 B1) fst) by done.
      intros Hin. apply Ht. by apply (keep_last_keys fst (rows B1)). }
  unfold laid. rewrite row_at_fmap, row_at_filter, row_at_keep_last by done.
  apply concat_Return in Hc as (_ & Hcol & _).
  change (columns (drop_index_duplicates C)) with (columns C).
  rewrite Hcol. by destruct (row_at _ t).
Qed.

Lemma merge_field_incoming A1 B1 C t c :
  concat A1 B1 = Return C → t ∈ index B1 →
  field_at (drop_index_duplicates C) t c
  = cells ← row_at (rows B1) t;
    cell_of (concat_columns A1 B1)
            (cast_cells A1 B1 (laid_cells A1 B1 B1 cells)) c.
Proof.
  intros Hc Ht. unfold field_at. rewrite (merge_rows _ _ _ Hc).
  unfold cast. rewrite row_at_fmap.
  rewrite row_at_app_r.
  2:{ rewrite <- list_fmap_compose.
      rewrite (list_fmap_ext (fst ∘ laid A1 B1 B1) fst) by done.
      by apply (keep_last_keys fst). }
  unfold laid. rewrite row_at_fmap, row_at_keep_last.
  apply concat_Return in Hc as (_ & Hcol & _).
  change (columns (drop_index_duplicates C)) with (columns C).
  rewrite Hcol. by destruct (row_at _ t).
Qed.

Lemma cell_of_laid a b side cells c :
  length cells = length (columns side) →
  (side = a ∨ side = b) → c ∈ concat_columns a b →
  cell_of (concat_columns a b) (laid_cells a b side cells) c
  = Some (default NaN (cell_of (columns side) cells c)).
Proof.
  intros Hlen Hside Hc. unfold laid_cells.
  destruct (bool_decide_reflect (columns a = columns b)) as [Heq|Hne].
  - assert (concat_columns a b = columns side) as Hcc.
    { unfold concat_columns. rewrite bool_decide_eq_true_2 by done.
      destruct Hside as [->| ->]; done. }
    rewrite Hcc in *.
    by destruct (cell_of_is_Some _ _ _ Hc Hlen) as [v ->].
  - unfold relay. by rewrite cell_of_fmap.
Qed.

(** The field of a merged row, from the field of the row it came from: as
    it was, or converted to float64. *)
Lemma cell_of_cast_laid a b side cells c :
  length cells = length (columns side) →
  (side = a ∨ side = b) → c ∈ concat_columns a b →
  let v := default NaN (cell_of (columns side) cells c) in
  let v' := cell_of (concat_columns a b)
              (cast_cells a b (laid_cells a b side cells)) c in
  v' = Some v ∨ v' = Some (astype_float64 v).
Proof.
  intros Hlen Hside Hc. cbn zeta.
  destruct (cell_of_cast_cells a b (concat_columns a b)
              (laid_cells a b side cells) c) as [-> | ->];
    rewrite cell_of_laid by done; [by left|by right].
Qed.

(** Reconciliation loses no timestamp and invents none: the merged table
    has exactly the timestamps of the two sides (after the incoming table
    is cleaned and the zones are aligned). *)
Theorem reconcile_timestamp_coverage loc A B R :
  reconcile loc A B = Return R →
  ∃ A1 B1,
    align_timezones loc A (clean B) = Return (A1, B1)
    ∧ ∀ t, t ∈ index R ↔ t ∈ index A1 ∨ t ∈ index B1.
Proof.
  intros HR. apply reconcile_Return in HR as (A1 & B1 & C & Ha & Hc & ->).
  exists A1, B1. split; [done|]. intros t.
  rewrite (merge_index _ _ _ Hc), elem_of_app, list_elem_of_filter.
  rewrite !keep_last_id_elem_of.
  destruct (decide (t ∈ index B1)); tauto.
Qed.

Lemma reconcile_timestamp_coverage_witness :
  ∃ A1 B1,
    align_timezones fixed_offset_zones (frame None [bar 1 100; bar 5 100])
      (clean (frame None [bar 5 105; bar 6 106])) = Return (A1, B1)
    ∧ ∀ t, t ∈ index (frame None [bar 1 100; bar 5 105; bar 6 106])
           ↔ t ∈ index A1 ∨ t ∈ index B1.
Proof.
  apply (reconcile_timestamp_coverage fixed_offset_zones
           (frame None [bar 1 100; bar 5 100])
           (frame None [bar 5 105; bar 6 106])).
  reflexivity.
Defined.

(** A timestamp that only the existing side has keeps, in the merged table,
    every field of the existing table: as it was or, when it is an int64
    and the merged column is float64, converted to float64. A column that
    holds int64 on both sides keeps its integers. *)
Theorem reconcile_keeps_unmatched_rows loc A B R A1 B1 t c :
  reconcile loc A B = Return R →
  align_timezones loc A (clean B) = Return (A1, B1) →
  rectangular A →
  t ∈ index A1 → t ∉ index B1 → c ∈ columns A1 →
  ∃ v, field_at A1 t c = Some v
       ∧ (field_at R t c = Some v
          ∨ ∃ n, v = Int64 n
                 ∧ field_at R t c = Some (Num (float64_of_int n)))
       ∧ (int64_under A1 c → int64_under B1 c → field_at R t c = Some v).
Proof.
  intros HR Ha Hrect HtA HtB Hcol.
  apply reconcile_Return in HR as (A1' & B1' & C & Ha' & Hc & ->).
  rewrite Ha in Ha'. injection Ha' as <- <-.
  pose proof (align_timezones_rectangular_l _ _ _ _ _ Ha Hrect) as HrA.
  rewrite (merge_field_existing _ _ _ _ _ Hc HtB). unfold field_at.
  destruct (proj2 (row_at_is_Some (rows A1) t) HtA) as [cells Hcells].
  rewrite Hcells. cbn.
  assert (length cells = length (columns A1)) as Hlen.
  { apply row_at_elem_of in Hcells. unfold rectangular in HrA.
    rewrite Forall_forall in HrA. apply (HrA _ Hcells). }
  destruct (cell_of_is_Some _ _ _ Hcol Hlen) as [v Hv].
  exists v. split; [done|]. split.
  - destruct (cell_of_cast_laid A1 B1 A1 cells c Hlen) as [-> | ->];
      [by left|by apply concat_columns_l| | ]; rewrite Hv; cbn; [by left|].
    destruct (astype_float64_cases v) as [-> | (n & -> & ->)]; [by left|].
    right. by exists n.
  - intros HiA HiB. rewrite cell_of_cast_int64 by done.
    rewrite cell_of_laid; [|done|by left|by apply concat_columns_l].
    by rewrite Hv.
Qed.

(** The archive has a Volume of integers and the response has no Volume:
    the rows of the response get NaN there, and the integer of the archive
    row that stays becomes the float64 of the same value. *)
Lemma reconcile_keeps_unmatched_rows_witness :
  let A := mkDF None ["Close"; "Volume"]
                [(1, [Num 100; Int64 9]); (5, [Num 100; Int64 8])] in
  let B := frame None [bar 5 105] in
  let R := mkDF None ["Close"; "Volume"]
                [(1, [Num 100; Num (float64_of_int 9)]); (5, [Num 105; NaN])] in
  reconcile fixed_offset_zones A B = Return R
  ∧ ∃ v, field_at A 1 "Volume" = Some v
         ∧ (field_at R 1 "Volume" = Some v
            ∨ ∃ n, v = Int64 n
                   ∧ field_at R 1 "Volume" = Some (Num (float64_of_int n)))
         ∧ (int64_under A "Volume" → int64_under B "Volume" →
            field_at R 1 "Volume" = Some v).
Proof.
  cbn zeta. split; [by vm_compute|].
  apply (reconcile_keeps_unmatched_rows fixed_offset_zones
           (mkDF None ["Close"; "Volume"]
                 [(1, [Num 100; Int64 9]); (5, [Num 100; Int64 8])])
           (frame None [bar 5 105])
           (mkDF None ["Close"; "Volume"]
                 [(1, [Num 100; Num (float64_of_int 9)]); (5, [Num 105; NaN])])
           (mkDF None ["Close"; "Volume"]
                 [(1, [Num 100; Int64 9]); (5, [Num 100; Int64 8])])
           (frame None [bar 5 105]) 1).
  - by vm_compute.
  - reflexivity.
  - repeat constructor.
  - vm_compute. left.
  - vm_compute. by intros [[=]|?%elem_of_nil]%elem_of_cons.
  - right. left.
Defined.

(** When the two sides have different columns, a row of the merged table
    has NaN in every column that the side it came from does not have. *)
Theorem reconcile_fills_missing_fields loc A B R A1 B1 t c :
  reconcile loc A B = Return R →
  align_timezones loc A (clean B) = Return (A1, B1) →
  rectangular A → rectangular B →
  (t ∈ index B1 → c ∈ columns A1 → c ∉ columns B1 →
   field_at R t c = Some NaN)
  ∧ (t ∈ index A1 → t ∉ index B1 → c ∈ columns B1 → c ∉ columns A1 →
     field_at R t c = Some NaN).
Proof.
  intros HR Ha HrectA HrectB.
  apply reconcile_Return in HR as (A1' & B1' & C & Ha' & Hc & ->).
  rewrite Ha in Ha'. injection Ha' as <- <-.
  pose proof (align_timezones_rectangular_l _ _ _ _ _ Ha HrectA) as HrA.
  pose proof (align_timezones_Return _ _ _ _ _ Ha) as (_ & _ & _ & _ & HrB).
  specialize (HrB (clean_rectangular _ HrectB)).
  split.
  - intros HtB HcA HcB.
    rewrite (merge_field_incoming _ _ _ _ _ Hc HtB).
    destruct (proj2 (row_at_is_Some (rows B1) t) HtB) as [cells Hcells].
    rewrite Hcells. cbn.
    destruct (cell_of_cast_laid A1 B1 B1 cells c) as [-> | ->];
      [|by right|by apply concat_columns_l|..];
      [|by rewrite cell_of_None..].
    apply row_at_elem_of in Hcells. unfold rectangular in HrB.
    rewrite Forall_forall in HrB. apply (HrB _ Hcells).
  - intros HtA HtB HcB HcA.
    rewrite (merge_field_existing _ _ _ _ _ Hc HtB).
    destruct (proj2 (row_at_is_Some (rows A1) t) HtA) as [cells Hcells].
    rewrite Hcells. cbn.
    destruct (cell_of_cast_laid A1 B1 A1 cells c) as [-> | ->];
      [|by left|by apply concat_columns_r|..];
      [|by rewrite cell_of_None..].
    apply row_at_elem_of in Hcells. unfold rectangular in HrA.
    rewrite Forall_forall in HrA. apply (HrA _ Hcells).
Qed.

Lemma reconcile_fills_missing_fields_witness :
  let R := mkDF None ["Close"; "Volume"]
                [(1, [Num 100; NaN]); (5, [Num 105; Num 9])] in
  field_at R 1 "Volume" = Some NaN.
Proof.
  cbn zeta.
  apply (reconcile_fills_missing_fields fixed_offset_zones
           (frame None [bar 1 100; bar 5 100])
           (mkDF None ["Close"; "Volume"] [(5, [Num 105; Num 9])])
           (mkDF None ["Close"; "Volume"]
                 [(1, [Num 100; NaN]); (5, [Num 105; Num 9])])
           (frame None [bar 1 100; bar 5 100])
           (mkDF None ["Close"; "Volume"] [(5, [Num 105; Num 9])])
           1 "Volume").
  - reflexivity.
  - reflexivity.
  - repeat constructor.
  - repeat constructor.
  - vm_compute. left.
  - vm_compute. by intros [[=]|?%elem_of_nil]%elem_of_cons.
  - right. left.
  - vm_compute. by intros [[=]|?%elem_of_nil]%elem_of_cons.
Defined.

(* ===================================================================== *)
(** * The loop over the intervals and the loop over the symbols *)
(* ===================================================================== *)

(** What one task does to the state, with what it sends and writes given
    as lists. *)
Lemma sync_interval_profile env sym itv mp csv s :
  ∃ s' reqs ws,
    sync_interval env sym itv mp csv s = (s', Return tt)
    ∧ dirs s' = dirs s
    ∧ requests s' = requests s ++ reqs
    ∧ writes s' = writes s ++ ws
    ∧ (reqs = [] ∨ ∃ r, reqs = [r] ∧ task_request sym itv mp r)
    ∧ ((ws = [] ∧ files s' = files s)
       ∨ ∃ df, ws = [(csv, df)] ∧ reqs ≠ []
               ∧ files s' = after_write (disk env csv) csv df (files s)).
Proof.
  io_unfold. unfold after_write, first_rows, task_request.
  repeat (case_match; simplify_eq/=);
    try match goal with
        | H : bool_decide (_ ∈ coarse_intervals) = true |- _ =>
            apply bool_decide_eq_true in H
        end;
    eexists _, _, _; (split; [reflexivity|]); cbn;
    (split; [reflexivity|]);
    (split; [first [reflexivity | symmetry; apply app_nil_r]|]);
    (split; [first [reflexivity | symmetry; apply app_nil_r]|]);
    (split; [first [by left | right; eexists; split; [reflexivity|];
                    cbn; eauto 8]|]);
    first [ by left | right; eexists; by repeat split ].
Qed.

Lemma for_each_sync_profile env sym (path_of : string → string) ivs s :
  ∃ s' reqs ws,
    for_each ivs (λ '(i, p), sync_interval env sym i p (path_of i)) s
    = (s', Return tt)
    ∧ dirs s' = dirs s
    ∧ requests s' = requests s ++ reqs
    ∧ writes s' = writes s ++ ws
    ∧ req_interval <$> reqs `sublist_of` ivs.*1
    ∧ Forall (λ r, ∃ p, (req_interval r, p) ∈ ivs
                        ∧ task_request sym (req_interval r) p r) reqs
    ∧ ws.*1 `sublist_of` (path_of <$> ivs.*1)
    ∧ (length ws ≤ length reqs)%nat
    ∧ ∀ q, q ∉ path_of <$> ivs.*1 → files s' !! q = files s !! q.
Proof.
  revert s. induction ivs as [|[i p] ivs IH]; intros s.
  { exists s, [], []. rewrite !app_nil_r. repeat split; done. }
  destruct (sync_interval_profile env sym i p (path_of i) s)
    as (s1 & reqs1 & ws1 & Hrun & Hd1 & Hr1 & Hw1 & Hreq1 & Hws1).
  destruct (IH s1)
    as (s2 & reqs2 & ws2 & Hrun2 & Hd2 & Hr2 & Hw2 & Hsub & Hall & Hwsub
        & Hlen & Hframe).
  exists s2, (reqs1 ++ reqs2), (ws1 ++ ws2).
  split. { cbn [for_each]. unfold bind at 1. by rewrite Hrun. }
  split; [congruence|].
  split. { by rewrite Hr2, Hr1, app_assoc. }
  split. { by rewrite Hw2, Hw1, app_assoc. }
  assert (Forall (λ r, ∃ p0, (req_interval r, p0) ∈ (i, p) :: ivs
                   ∧ task_request sym (req_interval r) p0 r) reqs2) as Hall'.
  { eapply Forall_impl; [exact Hall|]. intros r (p0 & ? & ?).
    exists p0. split; [by right|done]. }
  assert (req_interval <$> reqs1 ++ reqs2 `sublist_of` ((i, p) :: ivs).*1
          ∧ Forall (λ r, ∃ p0, (req_interval r, p0) ∈ (i, p) :: ivs
                      ∧ task_request sym (req_interval r) p0 r)
                   (reqs1 ++ reqs2)) as [? ?].
  { destruct Hreq1 as [->|(r & -> & Hr)].
    - split; [by apply sublist_cons|done].
    - pose proof Hr as (_ & Hi & _). split.
      + cbn. rewrite Hi. by apply sublist_skip.
      + constructor; [|done]. exists p. rewrite Hi. split; [left|done]. }
  split; [done|]. split; [done|].
  destruct Hws1 as [[-> Hf1]|(df & -> & Hne & Hf1)].
  - split; [by apply sublist_cons|]. split.
    { rewrite !length_app. cbn. lia. }
    intros q Hq. rewrite Hframe, Hf1; [done|].
    intros ?. apply Hq. rewrite fmap_cons. by right.
  - split; [by apply sublist_skip|]. split.
    { destruct reqs1; [done|]. cbn. rewrite !length_app. cbn. lia. }
    intros q Hq. rewrite Hframe, Hf1.
    + apply after_write_other. intros ->. apply Hq. rewrite fmap_cons. left.
    + intros ?. apply Hq. rewrite fmap_cons. by right.
Qed.

Lemma fetch_and_update_cases env ticker_symbol company_name s :
  let dir := company_dir_of env company_name in
  fetch_and_update env ticker_symbol company_name s
  = if bool_decide (is_Some (files s !! dir) ∨ dir ∈ dirs s)
    then sync_all env ticker_symbol dir s
    else if mkdir_allowed env dir
         then sync_all env ticker_symbol dir (made_dir dir s)
         else (s, Raise PermissionError).
Proof.
  cbn zeta. unfold fetch_and_update, company_dir_of, sync_all.
  unfold bind at 1. unfold os_path_exists at 1.
  destruct (bool_decide _); cbn [negb].
  - reflexivity.
  - unfold bind at 1, os_makedirs, made_dir.
    by destruct (mkdir_allowed env _).
Qed.

Lemma sync_all_profile env ticker_symbol dir s :
  ∃ s' reqs ws,
    sync_all env ticker_symbol dir s = (s', Return tt)
    ∧ dirs s' = dirs s
    ∧ requests s' = requests s ++ reqs
    ∧ writes s' = writes s ++ ws
    ∧ req_interval <$> reqs `sublist_of` INTERVAL_LIMITS.*1
    ∧ Forall (λ r, ∃ p, (req_interval r, p) ∈ INTERVAL_LIMITS
                        ∧ task_request (ticker_symbol +:+ ".NS")
                            (req_interval r) p r) reqs
    ∧ ws.*1 `sublist_of` csv_files_of dir ticker_symbol
    ∧ (length ws ≤ length reqs)%nat
    ∧ ∀ q, q ∉ csv_files_of dir ticker_symbol →
           files s' !! q = files s !! q.
Proof.
  apply (for_each_sync_profile env (ticker_symbol +:+ ".NS")
           (csv_file_of dir ticker_symbol) INTERVAL_LIMITS s).
Qed.

Lemma coarse_limit_is_max i p :
  (i, p) ∈ INTERVAL_LIMITS → i ∈ coarse_intervals → p = "max".
Proof.
  assert (Forall (λ ip : string * string,
            ip.1 ∈ coarse_intervals → ip.2 = "max") INTERVAL_LIMITS) as H.
  { apply (bool_decide_unpack _). by vm_compute. }
  rewrite Forall_forall in H. intros Hin. apply (H _ Hin).
Qed.

(** The worker of a symbol raises in one case only: the directory of the
    company does not exist and cannot be made. Then it raises what
    [os.makedirs] raised and has changed nothing; in every other case it
    returns its "done" line, whatever the provider and the disk did. *)
Theorem fetch_worker_outcome env ticker_symbol company_name s :
  let dir := company_dir_of env company_name in
  let r := fetch_worker env (ticker_symbol, company_name) s in
  if bool_decide (is_Some (files s !! dir) ∨ dir ∈ dirs s)
     || mkdir_allowed env dir
  then r.2 = Return (ticker_symbol +:+ " done")
  else r = (s, Raise PermissionError).
Proof.
  cbn zeta. unfold fetch_worker, bind.
  rewrite fetch_and_update_cases. cbn zeta.
  destruct (bool_decide _); cbn [orb].
  - by destruct (sync_all_profile env ticker_symbol
                   (company_dir_of env company_name) s)
      as (s' & ? & ? & -> & _).
  - destruct (mkdir_allowed env _); [|done].
    by destruct (sync_all_profile env ticker_symbol
                   (company_dir_of env company_name)
                   (made_dir (company_dir_of env company_name) s))
      as (s' & ? & ? & -> & _).
Qed.

(** The requests of one call of [fetch_and_update]: all for the symbol with
    the suffix ".NS"; at most one per interval of the table, in the order of
    the table; each for the period the table gives its interval, or from a
    start date, and then the table gives the interval "max". *)
Theorem fetch_and_update_requests env ticker_symbol company_name s :
  let s' := (fetch_and_update env ticker_symbol company_name s).1 in
  ∃ reqs,
    requests s' = requests s ++ reqs
    ∧ req_interval <$> reqs `sublist_of` INTERVAL_LIMITS.*1
    ∧ Forall (λ r,
        req_symbol r = ticker_symbol +:+ ".NS"
        ∧ ∃ p, (req_interval r, p) ∈ INTERVAL_LIMITS
               ∧ (req_range r = Period p
                  ∨ (p = "max" ∧ ∃ t, req_range r = Start t))) reqs.
Proof.
  cbn zeta. rewrite fetch_and_update_cases. cbn zeta.
  assert (∀ s0, requests s0 = requests s →
    ∃ reqs,
      requests (sync_all env ticker_symbol
                  (company_dir_of env company_name) s0).1
      = requests s ++ reqs
      ∧ req_interval <$> reqs `sublist_of` INTERVAL_LIMITS.*1
      ∧ Forall (λ r,
          req_symbol r = ticker_symbol +:+ ".NS"
          ∧ ∃ p, (req_interval r, p) ∈ INTERVAL_LIMITS
                 ∧ (req_range r = Period p
                    ∨ (p = "max" ∧ ∃ t, req_range r = Start t))) reqs)
    as Hloop.
  { intros s0 Hs0.
    destruct (sync_all_profile env ticker_symbol
                (company_dir_of env company_name) s0)
      as (s' & reqs & ws & -> & _ & Hr & _ & Hsub & Hall & _).
    exists reqs. cbn. rewrite Hr, Hs0. split; [done|]. split; [done|].
    eapply Forall_impl; [exact Hall|].
    intros r (p & Hin & Hsym & _ & Hrange). split; [done|].
    exists p. split; [done|]. destruct Hrange as [?|[Hc ?]]; [by left|].
    right. split; [|done]. by apply (coarse_limit_is_max _ _ Hin). }
  destruct (bool_decide _); [by apply Hloop|].
  destruct (mkdir_allowed env _); [by apply Hloop|].
  exists []. rewrite app_nil_r. split; [done|].
  split; [apply sublist_nil_l|constructor].
Qed.

(** The files of one call of [fetch_and_update]: no path but the archive
    paths of the symbol changes; each of them is written at most once, in
    the order of the table, and never without a request before; and the only
    directory that can appear is that of the company. *)
Theorem fetch_and_update_files env ticker_symbol company_name s :
  let dir := company_dir_of env company_name in
  let s' := (fetch_and_update env ticker_symbol company_name s).1 in
  (∀ q, q ∉ csv_files_of dir ticker_symbol → files s' !! q = files s !! q)
  ∧ (∃ ws, writes s' = writes s ++ ws
           ∧ ws.*1 `sublist_of` csv_files_of dir ticker_symbol
           ∧ NoDup ws.*1
           ∧ (length (writes s') - length (writes s)
              ≤ length (requests s') - length (requests s))%nat)
  ∧ (dirs s' = dirs s ∨ dirs s' = {[dir]} ∪ dirs s).
Proof.
  cbn zeta. rewrite fetch_and_update_cases. cbn zeta.
  set (dir := company_dir_of env company_name).
  assert (NoDup (csv_files_of dir ticker_symbol)) as Hnd.
  { apply NoDup_fmap_2; [intros i j; apply csv_file_of_inj|].
    apply (bool_decide_unpack _). by vm_compute. }
  assert (∀ s0, files s0 = files s → writes s0 = writes s →
                requests s0 = requests s →
    let s' := (sync_all env ticker_symbol dir s0).1 in
    (∀ q, q ∉ csv_files_of dir ticker_symbol → files s' !! q = files s !! q)
    ∧ (∃ ws, writes s' = writes s ++ ws
             ∧ ws.*1 `sublist_of` csv_files_of dir ticker_symbol
             ∧ NoDup ws.*1
             ∧ (length (writes s') - length (writes s)
                ≤ length (requests s') - length (requests s))%nat)
    ∧ dirs s' = dirs s0) as Hloop.
  { intros s0 Hf Hw Hrq.
    destruct (sync_all_profile env ticker_symbol dir s0)
      as (s' & reqs & ws & -> & Hd & Hr & Hws & _ & _ & Hsub & Hlen & Hfr).
    cbn. split; [intros q Hq; by rewrite Hfr, Hf|]. split; [|done].
    exists ws. rewrite Hws, Hw, Hr, Hrq. split; [done|]. split; [done|].
    split; [by eapply sublist_NoDup|]. rewrite !length_app. lia. }
  destruct (bool_decide _).
  { destruct (Hloop s) as (? & ? & ?); auto. }
  destruct (mkdir_allowed env dir).
  { destruct (Hloop (made_dir dir s)) as (? & ? & ->); auto. }
  cbn. split; [done|]. split; [|by left].
  exists []. rewrite app_nil_r. split; [done|].
  split; [apply sublist_nil_l|]. split; [constructor|lia].
Qed.

(** The loop of [main] over the tasks never raises, whatever the provider,
    the disk and the directories do: a worker that raises has its exception
    printed, and the loop goes on with the next task from there. *)
Theorem run_tasks_completes env tasks s :
  (run_tasks env tasks s).2 = Return tt
  ∧ ∀ task,
      run_tasks env (task :: tasks) s
      = run_tasks env tasks
          (match fetch_worker env task s with
           | (s1, Return _) => s1
           | (s1, Raise e) => printed (TaskFailed e) s1
           end).
Proof.
  split.
  - unfold run_tasks. revert s.
    induction tasks as [|task tasks IH]; intros s; [done|].
    cbn [for_each]. unfold bind at 1, try_except at 1, bind at 1.
    destruct (fetch_worker env task s) as [s1 [line|e]]; cbn; apply IH.
  - intros task. unfold run_tasks. cbn [for_each].
    unfold bind at 1, try_except at 1, bind at 1.
    by destruct (fetch_worker env task s) as [s1 [line|e]].
Qed.

(* ===================================================================== *)
(** * The branches of a task *)
(* ===================================================================== *)

(** An archive file that does not parse is reported and fetched anew: the
    task prints the reading error, asks for the whole period of the
    interval, and writes the cleaned response over the file when it has
    rows; with an empty response or a provider error the unreadable file
    stays as it is. *)
Theorem unreadable_archive_is_refetched env sym itv mp csv s :
  files s !! csv = Some Unreadable →
  let req := mkReq sym itv (Period mp) in
  let s' := (sync_interval env sym itv mp csv s).1 in
  requests s' = requests s ++ [req]
  ∧ (∃ out, stdout s' = stdout s ++ ErrorReading csv ParserError :: out)
  ∧ match provider env req with
    | Return data =>
        if empty data
        then files s' = files s ∧ writes s' = writes s
        else writes s' = writes s ++ [(csv, clean data)]
             ∧ files s'
               = after_write (disk env csv) csv (clean data) (files s)
    | Raise e =>
        files s' = files s ∧ writes s' = writes s
        ∧ stdout s' = stdout s ++ [ErrorReading csv ParserError;
                                   FailedToFetch sym itv e]
    end.
Proof.
  intros Hfile. cbn zeta.
  assert (bool_decide (is_Some (files s !! csv) ∨ csv ∈ dirs s) = true)
    as Hex by (apply bool_decide_eq_true_2; left; eauto).
  io_unfold. rewrite Hex, Hfile. unfold after_write, first_rows. cbn.
  repeat (case_match; simplify_eq/=);
    (split; [done|]);
    (split; [first [by eexists []
                   | eexists [_]; by rewrite <- app_assoc]|]);
    rewrite <- ?app_assoc; done.
Qed.

Lemma unreadable_archive_is_refetched_witness :
  let env := demo_env (λ _, Return (frame None [bar 1 100; bar 1 101]))
                      0 DiskOk in
  let s' := (sync_interval env "X.NS" "1m" "7d" minute_csv
               (state_with minute_csv Unreadable)).1 in
  files s' !! minute_csv = Some (Table (frame None [bar 1 101]))
  ∧ stdout s' = [ErrorReading minute_csv ParserError].
Proof.
  cbn zeta.
  destruct (unreadable_archive_is_refetched
              (demo_env (λ _, Return (frame None [bar 1 100; bar 1 101]))
                        0 DiskOk)
              "X.NS" "1m" "7d" minute_csv
              (state_with minute_csv Unreadable))
    as (_ & _ & _ & Hfiles).
  - by vm_compute.
  - rewrite Hfiles. by vm_compute.
Defined.

(** The rolling update of an intraday archive that has rows: the task asks
    for the whole period of the interval whatever the last stored timestamp
    is; an empty response changes nothing; a response with rows is
    reconciled with the cleaned archive and the result written over the
    file, and when the reconciliation raises, the file is left and the
    exception printed. *)
Theorem intraday_update env sym itv mp csv s df :
  files s !! csv = Some (Table df) →
  empty (clean df) = false →
  itv ∉ coarse_intervals →
  let req := mkReq sym itv (Period mp) in
  let s' := (sync_interval env sym itv mp csv s).1 in
  requests s' = requests s ++ [req]
  ∧ ∀ data, provider env req = Return data →
      if empty data
      then files s' = files s ∧ writes s' = writes s ∧ stdout s' = stdout s
      else match reconcile (localize env) (clean df) data with
           | Return R =>
               writes s' = writes s ++ [(csv, R)]
               ∧ files s' = after_write (disk env csv) csv R (files s)
           | Raise e =>
               files s' = files s ∧ writes s' = writes s
               ∧ stdout s' = stdout s ++ [DebugConcatFailed sym itv e]
           end.
Proof.
  intros Hfile Hne Hitv. cbn zeta.
  destruct (index_last_is_Some _ Hne) as (t & Ht & _).
  assert (bool_decide (itv ∈ coarse_intervals) = false) as Hitv'
    by (by apply bool_decide_eq_false_2).
  assert (bool_decide (is_Some (files s !! csv) ∨ csv ∈ dirs s) = true)
    as Hex by (apply bool_decide_eq_true_2; left; eauto).
  unfold reconcile.
  io_unfold. rewrite Hex, Hfile. cbn. rewrite Hne. cbn.
  rewrite Ht, Hitv'. unfold after_write, first_rows. cbn.
  split.
  - by repeat (case_match; simplify_eq/=).
  - intros data ->. cbn.
    by repeat (case_match; simplify_eq/=).
Qed.

Lemma intraday_update_witness :
  let env := demo_env (λ _, Return (frame None [bar 2 101; bar 3 102]))
                      0 DiskOk in
  let s := state_with minute_csv (Table (frame None [bar 1 100; bar 2 100])) in
  let s' := (sync_interval env "X.NS" "1m" "7d" minute_csv s).1 in
  requests s' = [mkReq "X.NS" "1m" (Period "7d")]
  ∧ files s' !! minute_csv
    = Some (Table (frame None [bar 1 100; bar 2 101; bar 3 102])).
Proof.
  cbn zeta.
  destruct (intraday_update
              (demo_env (λ _, Return (frame None [bar 2 101; bar 3 102]))
                        0 DiskOk)
              "X.NS" "1m" "7d" minute_csv
              (state_with minute_csv
                 (Table (frame None [bar 1 100; bar 2 100])))
              (frame None [bar 1 100; bar 2 100]))
    as (Hreq & Hdata).
  - by vm_compute.
  - reflexivity.
  - apply (bool_decide_unpack _). by vm_compute.
  - split; [exact Hreq|].
    specialize (Hdata _ eq_refl). cbn in Hdata.
    destruct Hdata as [_ ->]. by vm_compute.
Defined.

(** The update of a daily or coarser archive that is behind: when the
    timestamp of the last row plus one day is a [Timestamp] and before now,
    and the provider answers the request from that start with rows, these
    are reconciled with the cleaned archive and the result written over the
    file; when the reconciliation raises, the file is left and the exception
    printed. *)
Theorem coarse_update env sym itv mp csv s df last_date start_date data :
  files s !! csv = Some (Table df) →
  empty (clean df) = false →
  itv ∈ coarse_intervals →
  index_last (clean df) = Some last_date →
  add_day last_date = Return start_date →
  value start_date < value (datetime_now env (tzinfo start_date)) →
  provider env (mkReq sym itv (Start start_date)) = Return data →
  empty data = false →
  let s' := (sync_interval env sym itv mp csv s).1 in
  start_date = mkTs (tzinfo last_date) (value last_date + one_day)
  ∧ last (index df) = Some (value last_date)
  ∧ requests s' = requests s ++ [mkReq sym itv (Start start_date)]
  ∧ match reconcile (localize env) (clean df) data with
    | Return R =>
        writes s' = writes s ++ [(csv, R)]
        ∧ files s' = after_write (disk env csv) csv R (files s)
    | Raise e =>
        files s' = files s ∧ writes s' = writes s
        ∧ stdout s' = stdout s ++ [ConcatFailed sym itv e]
    end.
Proof.
  intros Hfile Hne Hitv Ht Hstart Hlt Hprov Hdata. cbn zeta.
  assert (bool_decide (itv ∈ coarse_intervals) = true) as Hitv'
    by (by apply bool_decide_eq_true_2).
  assert (bool_decide (is_Some (files s !! csv) ∨ csv ∈ dirs s) = true)
    as Hex by (apply bool_decide_eq_true_2; left; eauto).
  assert (ts_ltb start_date (datetime_now env (tzinfo start_date)) = true)
    as Hlt' by (by apply Z.ltb_lt).
  split.
  { unfold add_day in Hstart. by case_match; simplify_eq. }
  split.
  { unfold index_last in Ht. rewrite clean_index, last_keep_last in Ht.
    destruct (last (index df)); by simplify_eq/=. }
  unfold reconcile.
  io_unfold. rewrite Hex, Hfile. cbn. rewrite Hne. cbn.
  rewrite Ht, Hitv'. cbn. rewrite Hstart. cbn. rewrite Hlt', Hprov, Hdata.
  unfold after_write, first_rows. cbn.
  by repeat (case_match; simplify_eq/=).
Qed.

(** An archive of two rows a day apart, read two days after the last: the
    request starts a day after the last row, and its rows are appended. *)
Lemma coarse_update_witness :
  let data := frame None [bar (2 * one_day) 102] in
  let env := demo_env (answers_from (2 * one_day) data) (3 * one_day) DiskOk in
  let df := frame None [bar 0 100; bar one_day 101] in
  let s := state_with daily_csv (Table df) in
  let s' := (sync_interval env "X.NS" "1d" "max" daily_csv s).1 in
  requests s' = [mkReq "X.NS" "1d" (Start (mkTs None (2 * one_day)))]
  ∧ files s' !! daily_csv
    = Some (Table (frame None [bar 0 100; bar one_day 101;
                               bar (2 * one_day) 102])).
Proof.
  cbn zeta.
  destruct (coarse_update
              (demo_env (answers_from (2 * one_day)
                           (frame None [bar (2 * one_day) 102]))
                        (3 * one_day) DiskOk)
              "X.NS" "1d" "max" daily_csv
              (state_with daily_csv
                 (Table (frame None [bar 0 100; bar one_day 101])))
              (frame None [bar 0 100; bar one_day 101])
              (mkTs None one_day) (mkTs None (2 * one_day))
              (frame None [bar (2 * one_day) 102]))
    as (_ & _ & Hreq & Hdata).
  - by vm_compute.
  - reflexivity.
  - left.
  - reflexivity.
  - reflexivity.
  - by vm_compute.
  - reflexivity.
  - reflexivity.
  - split; [exact Hreq|]. cbn in Hdata.
    destruct Hdata as [_ ->]. by vm_compute.
Defined.

Lemma merge_columns_NoDup loc A B R :
  merge loc A B = Return R → NoDup (columns A) → NoDup (columns B) →
  NoDup (columns R).
Proof.
  intros (A1 & B1 & C & Ha & Hc & ->)%merge_Return HA HB.
  apply align_timezones_Return in Ha as (HcA & HcB & _).
  apply concat_Return in Hc as (_ & Hcol & _).
  change (columns (drop_index_duplicates C)) with (columns C).
  rewrite Hcol. apply concat_columns_NoDup; congruence.
Qed.

(** Whatever an existing archive path held, a table that a task writes over
    it repeats no timestamp and no column name. *)
Theorem update_writes_clean_table env sym itv mp csv s df :
  is_Some (files s !! csv) →
  writes (sync_interval env sym itv mp csv s).1 = writes s ++ [(csv, df)] →
  NoDup (index df) ∧ NoDup (columns df).
Proof.
  intros Hsome.
  assert (bool_decide (is_Some (files s !! csv) ∨ csv ∈ dirs s) = true)
    as Hex by (apply bool_decide_eq_true_2; by left).
  io_unfold. rewrite Hex.
  repeat (case_match; simplify_eq/=); intros Hw;
    try (apply (f_equal length) in Hw; rewrite length_app in Hw;
         cbn in Hw; lia);
    apply app_inv_head in Hw; injection Hw as <-;
    eauto using clean_index_NoDup, clean_columns_NoDup, merge_index_NoDup,
      merge_columns_NoDup.
Qed.

Lemma update_writes_clean_table_witness :
  let df := frame None [bar 1 90; bar 2 102] in
  NoDup (index df) ∧ NoDup (columns df).
Proof.
  cbn zeta.
  apply (update_writes_clean_table
           (demo_env (λ _, Return (frame None [bar 2 101; bar 2 102]))
                     0 DiskOk)
           "X.NS" "1m" "7d" minute_csv
           (state_with minute_csv (Table (frame None [bar 1 100; bar 1 90])))).
  - eexists. by vm_compute.
  - by vm_compute.
Defined.
